(** * Random over-sampling with optional smoothed bootstrap

    A shallow embedding of [RandomOverSampler._fit_resample]
    (src/imblearn/over_sampling/_random_over_sampler.py) and the properties
    of its output.

    Conventions of the embedding:
    - floating-point numbers are idealised as real numbers ([R]);
    - a feature matrix is a list of rows of cells, tagged with its storage
      format, its dtype and its column count;
    - the estimator's attributes, the random generator and a ghost trace of
      the calls made to external routines form an explicit state, threaded
      through a state-and-exception monad in which a raised exception keeps
      the state reached so far (as a Python exception does);
    - the target mapping [sampling_strategy_] and the shrinkage dict are
      association lists, iterated in insertion order. *)

From Stdlib Require Import String Reals List Arith Bool Lia Lra.
Import ListNotations.

Set Implicit Arguments.

(** ** Data model *)

(** Decidable equality on class labels ([y == class_sample]). *)
Class EqDec (A : Type) := eq_dec : forall a b : A, {a = b} + {a <> b}.

#[export] Instance nat_EqDec : EqDec nat := Nat.eq_dec.

(** The generator behind [random_state]: [randint high] draws an integer of
    [0, high), [standard_normal] draws one Gaussian deviate. Both advance the
    generator. *)
Class RandomState := {
  rng : Type;
  randint : nat -> rng -> nat * rng;
  randint_lt : forall high g, 0 < high -> fst (randint high g) < high;
  standard_normal : rng -> R * rng
}.

(** One entry of a feature matrix. [Str] stands for any content that does not
    convert to a number (heterogeneous object arrays are supported when no
    smoothing is requested). *)
Inductive cell :=
| Num (r : R)
| Str (s : string).

Inductive storage := dense | csr | csc.

Inductive dtype := object_ | int64 | float64.

Record matrix := {
  format : storage;
  dtype_ : dtype;
  shape1 : nat;
  rows : list (list cell)
}.

Definition shape0 (X : matrix) : nat := length (rows X).

(** [sparse.issparse] *)
Definition issparse (X : matrix) : bool :=
  match format X with dense => false | _ => true end.

Definition is_num (c : cell) : bool :=
  match c with Num _ => true | Str _ => false end.

(** The numeric value of a cell; only used on matrices that passed
    [check_array], whose cells are all [Num]. *)
Definition as_float (c : cell) : R :=
  match c with Num r => r | Str _ => 0%R end.

(** numpy's result type of mixing two dtypes. *)
Definition promote (a b : dtype) : dtype :=
  match a, b with
  | object_, _ | _, object_ => object_
  | float64, _ | _, float64 => float64
  | int64, int64 => int64
  end.

(** Truncation toward zero, the conversion of a float to an integer dtype. *)
Definition Rtrunc (r : R) : R :=
  if Rle_dec 0 r then IZR (Int_part r) else IZR (- Int_part (- r)).

(** [astype]: the value stored when [r] is converted to dtype [d]. *)
Definition astype (d : dtype) (r : R) : R :=
  match d with int64 => Rtrunc r | _ => r end.

(** Invariants every numpy/scipy matrix has and a list of lists need not:
    it is rectangular, and its entries are values of its dtype. *)
Definition well_shaped (X : matrix) : Prop :=
  Forall (fun r => length r = shape1 X) (rows X).


(** ** Array primitives *)

(** [a[idx]] for an index array: [None] is numpy's IndexError. *)
Fixpoint safe_indexing {A : Type} (a : list A) (idx : list nat) : option (list A) :=
  match idx with
  | [] => Some []
  | i :: idx' =>
      match nth_error a i, safe_indexing a idx' with
      | Some x, Some r => Some (x :: r)
      | _, _ => None
      end
  end.

(** [np.flatnonzero(mask)], positions counted from [i]. *)
Fixpoint flatnonzero_from (i : nat) (mask : list bool) : list nat :=
  match mask with
  | [] => []
  | b :: m => if b then i :: flatnonzero_from (S i) m else flatnonzero_from (S i) m
  end.

Definition flatnonzero (mask : list bool) : list nat := flatnonzero_from 0 mask.

Definition Rsum (l : list R) : R := fold_right Rplus 0%R l.

Definition mean (l : list R) : R := (Rsum l / INR (length l))%R.

(** Population variance (ddof = 0). *)
Definition variance (l : list R) : R :=
  mean (map (fun x => ((x - mean l) * (x - mean l))%R) l).

Definition column (k : nat) (A : list (list R)) : list R :=
  map (fun r => nth k r 0%R) A.

(** [np.std(A, axis=0)] for an array with [f] columns. *)
Definition np_std (f : nat) (A : list (list R)) : list R :=
  map (fun k => sqrt (variance (column k A))) (seq 0 f).

(** [sklearn.utils.sparsefuncs.mean_variance_axis(A, axis=0)]. *)
Definition mean_variance_axis (f : nat) (A : list (list R)) : list R * list R :=
  (map (fun k => mean (column k A)) (seq 0 f),
   map (fun k => variance (column k A)) (seq 0 f)).

(** [np.diagflat(v)] *)
Definition diagflat (v : list R) : list (list R) :=
  map (fun i => map (fun j => if i =? j then nth i v 0%R else 0%R)
                    (seq 0 (length v)))
      (seq 0 (length v)).

Fixpoint inner (a b : list R) : R :=
  match a, b with
  | x :: a', y :: b' => (x * y + inner a' b')%R
  | _, _ => 0%R
  end.

(** [A.dot(B)] *)
Definition dot (A B : list (list R)) : list (list R) :=
  map (fun a => map (fun k => inner a (column k B)) (seq 0 (length (hd [] B)))) A.

Fixpoint vadd (a b : list R) : list R :=
  match a, b with
  | x :: a', y :: b' => (x + y)%R :: vadd a' b'
  | _, _ => []
  end.

(** Element-wise [A + B] of two arrays of one shape. *)
Fixpoint madd (A B : list (list R)) : list (list R) :=
  match A, B with
  | a :: A', b :: B' => vadd a b :: madd A' B'
  | _, _ => []
  end.

(** Row-wise stacking ([np.vstack], [sparse.vstack]) into storage [fmt]. *)
Definition vstack (fmt : storage) (f : nat) (blocks : list matrix) : matrix :=
  {| format := fmt;
     dtype_ := match blocks with
               | [] => float64
               | b :: bs => fold_left promote (map dtype_ bs) (dtype_ b)
               end;
     shape1 := f;
     rows := concat (map rows blocks) |}.

(** ** Estimator state, exceptions and the monad *)

Section RandomOverSampler.

Context {label : Type} {label_eq : EqDec label} {RS : RandomState}.

(** The [shrinkage] parameter: a real number or a dict. *)
Inductive shrinkage_param :=
| Real (s : R)
| Dict (d : list (label * R)).

(** The exceptions [_fit_resample] can end with. The first two are the
    [ValueError]s the method raises itself; [ValueError_choice] is raised by
    [RandomState.choice] ("'a' cannot be empty unless no samples are taken");
    the last three are the interpreter's. *)
Inductive exn :=
| ValueError_shrinkage (missing_shrinkage_keys : list label)
| ValueError_numerical
| ValueError_choice
| ZeroDivisionError
| KeyError (k : label)
| IndexError.

(** Calls to external routines, recorded in order (ghost state). *)
Inductive call :=
| call_check_array
| call_choice (size : nat)
| call_randn (d0 d1 : nat).

(** The state the method runs in: the generator, the two attributes of [self]
    it assigns and the trace of calls. An attribute that has not been assigned
    yet is [None]; [shrinkage_] bound to Python's None is [Some None]. *)
Record state := {
  random_state : rng;
  shrinkage_ : option (option (list (label * R)));
  sample_indices_ : option (list nat);
  calls : list call
}.

Definition M (A : Type) : Type := state -> (exn + A) * state.

Definition ret {A} (a : A) : M A := fun s => (inr a, s).

Definition raise {A} (e : exn) : M A := fun s => (inl e, s).

Definition bind {A B} (c : M A) (k : A -> M B) : M B :=
  fun s => match c s with
           | (inl e, s') => (inl e, s')
           | (inr a, s') => k a s'
           end.

Notation "x <- c ;; k" := (bind c (fun x => k))
  (at level 61, c at next level, right associativity).
Notation "c ;;; k" := (bind c (fun _ => k))
  (at level 61, right associativity).

Definition record (c : call) : M unit :=
  fun s => (inr tt, {| random_state := random_state s; shrinkage_ := shrinkage_ s;
                       sample_indices_ := sample_indices_ s;
                       calls := calls s ++ [c] |}).

Definition set_shrinkage_ (v : option (list (label * R))) : M unit :=
  fun s => (inr tt, {| random_state := random_state s; shrinkage_ := Some v;
                       sample_indices_ := sample_indices_ s;
                       calls := calls s |}).

Definition set_sample_indices_ (v : list nat) : M unit :=
  fun s => (inr tt, {| random_state := random_state s; shrinkage_ := shrinkage_ s;
                       sample_indices_ := Some v;
                       calls := calls s |}).

(** Running a generator primitive on [random_state]. *)
Definition draw {A} (f : rng -> A * rng) : M A :=
  fun s => let (a, g) := f (random_state s) in
           (inr a, {| random_state := g; shrinkage_ := shrinkage_ s;
                      sample_indices_ := sample_indices_ s;
                      calls := calls s |}).

Fixpoint replicateM {A} (n : nat) (c : M A) : M (list A) :=
  match n with
  | 0 => ret []
  | S n' => a <- c ;; r <- replicateM n' c ;; ret (a :: r)
  end.

(** ** External routines *)

(** [random_state.choice(a, size=size, replace=True)]: [size] positions of [a]
    drawn with [randint(0, len(a))], and the entries of [a] found there.
    An empty [a] is an error unless no sample is taken. *)
Definition choice (a : list nat) (size : nat) : M (list nat) :=
  record (call_choice size) ;;;
  if (length a =? 0) && negb (size =? 0) then raise ValueError_choice
  else
    idx <- replicateM size (draw (randint (length a))) ;;
    match safe_indexing a idx with
    | Some r => ret r
    | None => raise IndexError
    end.

(** [random_state.randn(d0, d1)], filled row by row. *)
Definition randn (d0 d1 : nat) : M (list (list R)) :=
  record (call_randn d0 d1) ;;;
  replicateM d0 (replicateM d1 (draw standard_normal)).

(** [check_array(X, accept_sparse=["csr", "csc"], dtype="numeric")]: an object
    array is converted to float64, which fails on non-numeric content; the
    dtype of any other array is kept. [None] is its [ValueError]. Its checks
    for an empty array and for non-finite values are left out: [_check_X_y]
    has already refused an empty X, and the reals have no NaN. *)
Definition check_array (X : matrix) : option matrix :=
  if forallb (forallb is_num) (rows X) then
    Some {| format := format X;
            dtype_ := match dtype_ X with object_ => float64 | d => d end;
            shape1 := shape1 X;
            rows := rows X |}
  else None.

(** ** The method *)

Definition keys {V} (d : list (label * V)) : list label := map fst d.

Fixpoint getitem {V} (d : list (label * V)) (k : label) : option V :=
  match d with
  | [] => None
  | (k', v) :: d' => if eq_dec k' k then Some v else getitem d' k
  end.

Definition contains {V} (d : list (label * V)) (k : label) : bool :=
  match getitem d k with Some _ => true | None => false end.

(** Lines 151-178: the resolution of [shrinkage_] and the numeric check. *)
Definition resolve_shrinkage (smoothed_bootstrap : bool) (shrinkage : shrinkage_param)
    (sampling_strategy_ : list (label * nat)) (X : matrix) : M matrix :=
  if smoothed_bootstrap then
    match shrinkage with
    | Real s =>
        set_shrinkage_ (Some (map (fun kn => (fst kn, s)) sampling_strategy_))
    | Dict d =>
        let missing_shrinkage_keys :=
          filter (fun k => negb (contains d k)) (keys sampling_strategy_) in
        match missing_shrinkage_keys with
        | [] => set_shrinkage_ (Some d)
        | _ :: _ => raise (ValueError_shrinkage missing_shrinkage_keys)
        end
    end ;;;
    record call_check_array ;;;
    match check_array X with
    | Some X' => ret X'
    | None => raise ValueError_numerical
    end
  else
    set_shrinkage_ None ;;; ret X.

(** Lines 194-197. *)
Definition smoothing_constant (n_samples n_features : nat) : R :=
  Rpower (4 / INR ((n_features + 2) * n_samples)) (1 / INR (n_features + 4)).

(** Lines 198-205: the per-feature scale of the rows of a class. *)
Definition X_class_scale (X : matrix) (X_class : list (list cell)) : list R :=
  let A := map (map as_float) X_class in
  if issparse X then map sqrt (snd (mean_variance_axis (shape1 X) A))
  else np_std (shape1 X) A.

(** Lines 206-208. *)
Definition smoothing_matrix (s : R) (X : matrix) (X_class : list (list cell))
  : list (list R) :=
  diagflat (map (fun sc => (s * smoothing_constant (shape0 X) (shape1 X) * sc)%R)
                (X_class_scale X X_class)).

Definition liftO {A} (e : exn) (o : option A) : M A :=
  match o with Some a => ret a | None => raise e end.

(** Line 210: the perturbed rows, [Z.dot(smoothing_matrix) + X[bootstrap_indices, :]]. *)
Definition perturbed (s : R) (X : matrix) (X_class X_boot : list (list cell))
    (Z : list (list R)) : list (list R) :=
  madd (dot Z (smoothing_matrix s X X_class)) (map (map as_float) X_boot).

(** Lines 211-213: the block appended to [X_resampled]; for a sparse [X] it is
    [sparse.csr_matrix(X_new, dtype=X.dtype)]. *)
Definition appended_block (X : matrix) (X_new : list (list R)) : matrix :=
  if issparse X then
    {| format := csr; dtype_ := dtype_ X; shape1 := shape1 X;
       rows := map (map (fun v => Num (astype (dtype_ X) v))) X_new |}
  else
    {| format := dense; dtype_ := promote float64 (dtype_ X);
       shape1 := shape1 X;
       rows := map (map Num) X_new |}.

Definition get_shrinkage_ : M (option (option (list (label * R)))) :=
  fun s => (inr (shrinkage_ s), s).

(** Lines 192-213: the rows appended for one class when smoothing. *)
Definition smoothed_block (X : matrix) (class_sample : label) (num_samples : nat)
    (target_class_indices bootstrap_indices : list nat) : M matrix :=
  (if (shape1 X + 2) * shape0 X =? 0 then raise ZeroDivisionError else ret tt) ;;;
  X_class <- liftO IndexError (safe_indexing (rows X) target_class_indices) ;;
  sh <- get_shrinkage_ ;;
  s <- liftO (KeyError class_sample)
         (match sh with
          | Some (Some d) => getitem d class_sample
          | _ => None
          end) ;;
  Z <- randn num_samples (shape1 X) ;;
  X_boot <- liftO IndexError (safe_indexing (rows X) bootstrap_indices) ;;
  ret (appended_block X (perturbed s X X_class X_boot Z)).

(** [y == class_sample] *)
Definition label_mask (y : list label) (class_sample : label) : list bool :=
  map (fun l => if eq_dec l class_sample then true else false) y.

(** Lines 184-218: the body of the loop over [sampling_strategy_.items()]. *)
Definition resample_class (smoothed_bootstrap : bool) (X : matrix) (y : list label)
    (acc : list matrix * list (list label) * list nat)
    (item : label * nat) : M (list matrix * list (list label) * list nat) :=
  let '(X_resampled, y_resampled, sample_indices) := acc in
  let (class_sample, num_samples) := item in
  let target_class_indices := flatnonzero (label_mask y class_sample) in
  bootstrap_indices <- choice target_class_indices num_samples ;;
  let sample_indices := sample_indices ++ bootstrap_indices in
  X_new <- (if smoothed_bootstrap then
              smoothed_block X class_sample num_samples
                             target_class_indices bootstrap_indices
            else
              r <- liftO IndexError (safe_indexing (rows X) bootstrap_indices) ;;
              ret {| format := format X; dtype_ := dtype_ X;
                     shape1 := shape1 X; rows := r |}) ;;
  y_new <- liftO IndexError (safe_indexing y bootstrap_indices) ;;
  ret (X_resampled ++ [X_new], y_resampled ++ [y_new], sample_indices).

Fixpoint foldM {A B} (f : A -> B -> M A) (a : A) (l : list B) : M A :=
  match l with
  | [] => ret a
  | b :: l' => a' <- f a b ;; foldM f a' l'
  end.

(** [RandomOverSampler._fit_resample] (lines 148-228); [smoothed_bootstrap],
    [shrinkage] and [sampling_strategy_] are the attributes of [self] it
    reads. *)
Definition _fit_resample (smoothed_bootstrap : bool) (shrinkage : shrinkage_param)
    (sampling_strategy_ : list (label * nat)) (X0 : matrix) (y : list label)
  : M (matrix * list label) :=
  X <- resolve_shrinkage smoothed_bootstrap shrinkage sampling_strategy_ X0 ;;
  acc <- foldM (resample_class smoothed_bootstrap X y)
               ([X], [y], seq 0 (shape0 X)) sampling_strategy_ ;;
  let '(X_resampled, y_resampled, sample_indices) := acc in
  set_sample_indices_ sample_indices ;;;
  ret (if issparse X then vstack (format X) (shape1 X) X_resampled
       else vstack dense (shape1 X) X_resampled,
       concat y_resampled).

(** ** Predicates used to state the properties *)

(** What the loop leaves alone: the attributes of [self], and the number of
    calls to [check_array]. *)
Definition frame (s s' : state) : Prop :=
  shrinkage_ s' = shrinkage_ s /\
  sample_indices_ s' = sample_indices_ s /\
  exists l, calls s' = calls s ++ l /\ ~ In call_check_array l.

Definition preserves {A} (c : M A) : Prop :=
  forall s r s', c s = (r, s') -> frame s s'.

(** [Z] is a value [random_state.randn(d0, d1)] can return. *)
Definition drawn_randn (d0 d1 : nat) (Z : list (list R)) : Prop :=
  exists sa sb : state, randn d0 d1 sa = (inr Z, sb).

(** What one successful turn of the loop has computed for the entry [item] of
    [sampling_strategy_]: the drawn indices, the block of rows and the labels
    appended. [shr] is the value of [self.shrinkage_] during the loop. *)
Definition class_result (smoothed_bootstrap : bool) (X : matrix) (y : list label)
    (shr : option (option (list (label * R))))
    (item : label * nat) (res : list nat * matrix * list label) : Prop :=
  let '(bootstrap_indices, X_new, y_new) := res in
  length bootstrap_indices = snd item /\
  Forall (fun i => nth_error y i = Some (fst item)) bootstrap_indices /\
  safe_indexing y bootstrap_indices = Some y_new /\
  if smoothed_bootstrap then
    exists d s X_class X_boot Z,
      shr = Some (Some d) /\ getitem d (fst item) = Some s /\
      safe_indexing (rows X) (flatnonzero (label_mask y (fst item))) = Some X_class /\
      safe_indexing (rows X) bootstrap_indices = Some X_boot /\
      drawn_randn (snd item) (shape1 X) Z /\
      (shape1 X + 2) * shape0 X <> 0 /\
      X_new = appended_block X (perturbed s X X_class X_boot Z)
  else
    exists r,
      safe_indexing (rows X) bootstrap_indices = Some r /\
      X_new = {| format := format X; dtype_ := dtype_ X;
                 shape1 := shape1 X; rows := r |}.

(** The dict [self.shrinkage_] is bound to when lines 151-166 raise nothing. *)
Definition resolves_to (shrinkage : shrinkage_param)
    (sampling_strategy_ : list (label * nat)) (d : list (label * R)) : Prop :=
  match shrinkage with
  | Real s => d = map (fun kn => (fst kn, s)) sampling_strategy_
  | Dict d' =>
      d = d' /\
      filter (fun k => negb (contains d' k)) (keys sampling_strategy_) = []
  end.

(** The number of calls to [check_array] in a trace. *)
Definition is_check_array (c : call) : bool :=
  match c with call_check_array => true | _ => false end.

Definition count_check_array (l : list call) : nat :=
  length (filter is_check_array l).

(** [X] holds some non-numeric content. *)
Definition non_numeric (X : matrix) : Prop :=
  exists row str, In row (rows X) /\ In (Str str) row.

(** The number of rows the target mapping asks for a class ([0] for a class
    it does not mention). *)
Definition requested (sampling_strategy_ : list (label * nat)) (C : label) : nat :=
  match getitem sampling_strategy_ C with Some K => K | None => 0 end.

(** The calls a run that returns makes to the external routines, in order. *)
Definition expected_calls (smoothed_bootstrap : bool) (n_features : nat)
    (sampling_strategy_ : list (label * nat)) : list call :=
  (if smoothed_bootstrap then [call_check_array] else []) ++
  flat_map (fun item =>
              call_choice (snd item) ::
              (if smoothed_bootstrap then [call_randn (snd item) n_features]
               else []))
           sampling_strategy_.

(** [c], when it returns, has appended [l] to the trace. *)
Definition logs {A} (l : list call) (c : M A) : Prop :=
  forall s a s', c s = (inr a, s') -> calls s' = calls s ++ l.


(** The shrinkage factor [self.shrinkage_[c]] in a state, if there is one. *)
Definition shrinkage_of (s : state) (c : label) : option R :=
  match shrinkage_ s with
  | Some (Some d) => getitem d c
  | _ => None
  end.

(** Two states with the same generator and the same shrinkage factors for the
    classes of [K]. *)
Definition alike (K : list label) (s t : state) : Prop :=
  random_state s = random_state t /\
  forall c, In c K -> shrinkage_of s c = shrinkage_of t c.

(** [m] gives the same result in two such states, and leaves them alike. *)
Definition respects {A} (K : list label) (m : M A) : Prop :=
  forall s t, alike K s t ->
    fst (m s) = fst (m t) /\ alike K (snd (m s)) (snd (m t)).

(** The parts of a loop result. *)
Definition res_indices (r : list nat * matrix * list label) : list nat := fst (fst r).
Definition res_block (r : list nat * matrix * list label) : matrix := snd (fst r).
Definition res_labels (r : list nat * matrix * list label) : list label := snd r.

End RandomOverSampler.

Arguments Real {label} s.
Arguments ValueError_numerical {label}.
Arguments ValueError_choice {label}.
Arguments ZeroDivisionError {label}.
Arguments IndexError {label}.

(** ** A concrete generator and data set, for closed examples *)

(** A counter: [randint high] returns the counter modulo [high], and the
    "Gaussian" deviate is the counter itself. *)
#[export] Instance counter_rng : RandomState := {|
  rng := nat;
  randint := fun high g => (g mod high, S g);
  randint_lt := fun high g H =>
    Nat.mod_upper_bound g high (proj2 (Nat.neq_0_lt_0 high) H);
  standard_normal := fun g => (INR g, S g)
|}.

Definition state0 : state (label := nat) (RS := counter_rng) :=
  {| random_state := 0; shrinkage_ := None; sample_indices_ := None; calls := [] |}.

(** Three rows with two features; rows 0 and 2 are of class 1, row 1 of class 0. *)
Definition X_demo : matrix :=
  {| format := dense; dtype_ := float64; shape1 := 2;
     rows := [[Num 1; Num 2]; [Num 3; Num 4]; [Num 5; Num 6]] |}.

Definition y_demo : list nat := [1; 0; 1].

(** The same rows, with a string in the second one. *)
Definition X_mixed : matrix :=
  {| format := dense; dtype_ := object_; shape1 := 2;
     rows := [[Num 1; Num 2]; [Num 3; Str "a"]; [Num 5; Num 6]] |}.

(** Two rows with one feature, one row per class. *)
Definition X_pair : matrix :=
  {| format := dense; dtype_ := float64; shape1 := 1;
     rows := [[Num 1]; [Num 3]] |}.

Definition y_pair : list nat := [0; 1].

(** A one-row sparse matrix of integers. *)
Definition X_csc : matrix :=
  {| format := csc; dtype_ := int64; shape1 := 1; rows := [[Num 2]] |}.

Definition y_csc : list nat := [1].

(** ** Lists and index arrays *)

Lemma safe_indexing_Forall2 {A} (a : list A) idx r :
  safe_indexing a idx = Some r <->
  Forall2 (fun i x => nth_error a i = Some x) idx r.
Proof.
  revert r. induction idx as [|i idx IH]; intros r; simpl.
  - split; intros H.
    + injection H as <-. constructor.
    + inversion H. reflexivity.
  - destruct (nth_error a i) as [x|] eqn:Hx.
    + destruct (safe_indexing a idx) as [r'|] eqn:Hr.
      * split; intros H.
        -- injection H as <-. constructor; [exact Hx | now apply IH].
        -- inversion H as [|? y ? r'' Hy Hrest]; subst.
           apply IH in Hrest. congruence.
      * split; intros H; [discriminate|].
        inversion H as [|? y ? r'' Hy Hrest]; subst.
        apply IH in Hrest. discriminate.
    + split; intros H; [discriminate|].
      inversion H; subst. congruence.
Qed.

Lemma safe_indexing_length {A} (a : list A) idx r :
  safe_indexing a idx = Some r -> length r = length idx.
Proof.
  intros H. apply safe_indexing_Forall2 in H.
  symmetry. eapply Forall2_length; eauto.
Qed.

Lemma safe_indexing_In {A} (a : list A) idx r :
  safe_indexing a idx = Some r -> Forall (fun x => In x a) r.
Proof.
  intros H. apply safe_indexing_Forall2 in H.
  induction H; constructor; auto. eapply nth_error_In; eauto.
Qed.

Lemma safe_indexing_total {A} (a : list A) idx :
  Forall (fun i => i < length a) idx -> exists r, safe_indexing a idx = Some r.
Proof.
  induction 1 as [|i idx Hi _ [r Hr]]; simpl.
  - now exists [].
  - destruct (nth_error a i) as [x|] eqn:Hx.
    + rewrite Hr. now exists (x :: r).
    + apply nth_error_None in Hx. lia.
Qed.

Lemma Forall2_concat {A B} (P : A -> B -> Prop) ls rs :
  Forall2 (Forall2 P) ls rs -> Forall2 P (concat ls) (concat rs).
Proof.
  induction 1; simpl; [constructor|]. now apply Forall2_app.
Qed.

Lemma Forall2_nth_error {A B} (P : A -> B -> Prop) l r n x :
  Forall2 P l r -> nth_error r n = Some x ->
  exists i, nth_error l n = Some i /\ P i x.
Proof.
  intros H. revert n. induction H as [|i y l r Hy _ IH]; intros n Hn.
  - destruct n; discriminate.
  - destruct n as [|n]; simpl in *.
    + injection Hn as <-. eauto.
    + eauto.
Qed.

Lemma Forall2_In_r {A B} (P : A -> B -> Prop) l r y :
  Forall2 P l r -> In y r -> exists x, P x y.
Proof.
  induction 1 as [|a b l r Hab _ IH]; simpl; [tauto|].
  intros [<-|Hy]; eauto.
Qed.

Lemma flatnonzero_from_spec mask k i :
  In i (flatnonzero_from k mask) <->
  k <= i /\ nth_error mask (i - k) = Some true.
Proof.
  revert k. induction mask as [|b m IH]; intros k; simpl.
  - split; [tauto|]. intros [_ H]. destruct (i - k); discriminate.
  - assert (Hrec : In i (flatnonzero_from (S k) m) <->
                   k < i /\ nth_error (b :: m) (i - k) = Some true).
    { rewrite IH. split; intros [Hle Hn]; split; try lia.
      - replace (i - k) with (S (i - S k)) by lia. exact Hn.
      - replace (i - k) with (S (i - S k)) in Hn by lia. exact Hn. }
    destruct b; simpl; rewrite ?Hrec.
    + split.
      * intros [<-|[Hlt Hn]]; [|split; [lia|exact Hn]].
        split; [lia|]. now rewrite Nat.sub_diag.
      * intros [Hle Hn].
        destruct (Nat.eq_dec k i) as [->|Hne]; [now left|right].
        split; [lia|exact Hn].
    + split.
      * intros [Hlt Hn]. split; [lia|exact Hn].
      * intros [Hle Hn].
        destruct (Nat.eq_dec k i) as [->|Hne].
        -- rewrite Nat.sub_diag in Hn. discriminate.
        -- split; [lia|exact Hn].
Qed.




(** ** Reasoning about the monad and the loop *)

Section Analysis.

Context {label : Type} {label_eq : EqDec label} {RS : RandomState}.

Local Abbreviation state := (@state label RS).
Local Abbreviation M := (@M label RS).
Local Abbreviation exn := (@exn label).

Lemma bind_inr {A B} (c : M A) (k : A -> M B) s b s' :
  bind c k s = (inr b, s') ->
  exists a s1, c s = (inr a, s1) /\ k a s1 = (inr b, s').
Proof.
  unfold bind. destruct (c s) as [[e|a] s1]; intros H; [discriminate|eauto].
Qed.

Lemma bind_run {A B} (c : M A) (k : A -> M B) s a s1 :
  c s = (inr a, s1) -> bind c k s = k a s1.
Proof. unfold bind. now intros ->. Qed.

Lemma liftO_inr {A} (e : exn) (o : option A) (s : state) a s' :
  liftO e o s = (inr a, s') -> o = Some a /\ s' = s.
Proof.
  destruct o; unfold liftO, ret, raise; intros H; inversion H; auto.
Qed.

Lemma frame_refl (s : state) : frame s s.
Proof.
  repeat split. exists []. rewrite app_nil_r. auto.
Qed.

Lemma frame_trans (s1 s2 s3 : state) : frame s1 s2 -> frame s2 s3 -> frame s1 s3.
Proof.
  intros (Ha & Hb & l & Hl & Hn) (Ha' & Hb' & l' & Hl' & Hn').
  repeat split; try congruence.
  exists (l ++ l'). rewrite Hl', Hl, app_assoc. split; [reflexivity|].
  rewrite in_app_iff. tauto.
Qed.

Lemma preserves_ret {A} (a : A) : preserves (ret a : M A).
Proof. intros s r s' H. inversion H. apply frame_refl. Qed.

Lemma preserves_raise {A} e : preserves (@raise label RS A e).
Proof. intros s r s' H. inversion H. apply frame_refl. Qed.

Lemma preserves_bind {A B} (c : M A) (k : A -> M B) :
  preserves c -> (forall a, preserves (k a)) -> preserves (bind c k).
Proof.
  intros Hc Hk s r s'. unfold bind.
  destruct (c s) as [[e|a] s1] eqn:Hcs; intros H.
  - inversion H; subst. eapply Hc; eauto.
  - eapply frame_trans; [eapply Hc; eauto | eapply Hk; eauto].
Qed.

Lemma preserves_liftO {A} (e : exn) (o : option A) :
  preserves (liftO e o : M A).
Proof. destruct o; [apply preserves_ret | apply preserves_raise]. Qed.

Lemma preserves_record c :
  c <> call_check_array -> preserves (record c : M unit).
Proof.
  intros Hc s r s' H. inversion H; subst; simpl.
  repeat split. exists [c]. split; [reflexivity|].
  simpl. intros [E|[]]. congruence.
Qed.

Lemma preserves_draw {A} (f : rng -> A * rng) : preserves (draw f : M A).
Proof.
  intros s r s'. unfold draw. destruct (f (random_state s)) as [a g].
  intros H. inversion H; subst. repeat split; simpl.
  exists []. rewrite app_nil_r. auto.
Qed.

Lemma preserves_replicateM {A} n (c : M A) :
  preserves c -> preserves (replicateM n c).
Proof.
  intros Hc. induction n; simpl.
  - apply preserves_ret.
  - apply preserves_bind; [exact Hc|]. intros a.
    apply preserves_bind; [exact IHn|]. intros r. apply preserves_ret.
Qed.

Lemma preserves_foldM {A B} (f : A -> B -> M A) l :
  (forall a b, preserves (f a b)) -> forall a, preserves (foldM f a l).
Proof.
  intros Hf. induction l as [|b l IH]; intros a; simpl.
  - apply preserves_ret.
  - apply preserves_bind; [apply Hf | exact IH].
Qed.

Create HintDb frame.

#[local] Hint Resolve preserves_ret preserves_raise preserves_liftO
  preserves_draw preserves_replicateM : frame.

Lemma preserves_choice a size : preserves (choice a size : M _).
Proof.
  unfold choice. apply preserves_bind.
  - apply preserves_record. discriminate.
  - intros _. destruct (_ && _); auto with frame.
    apply preserves_bind; auto with frame.
    intros idx. destruct (safe_indexing a idx); auto with frame.
Qed.

Lemma preserves_randn d0 d1 : preserves (randn d0 d1 : M _).
Proof.
  unfold randn. apply preserves_bind.
  - apply preserves_record. discriminate.
  - intros _. auto with frame.
Qed.

Lemma preserves_get_shrinkage_ : preserves (get_shrinkage_ : M _).
Proof. intros s r s' H. inversion H. apply frame_refl. Qed.

Lemma preserves_smoothed_block X c n pool idx :
  preserves (smoothed_block X c n pool idx).
Proof.
  unfold smoothed_block.
  apply preserves_bind; [destruct (_ =? _); auto with frame|]. intros _.
  apply preserves_bind; auto with frame. intros X_class.
  apply preserves_bind; [apply preserves_get_shrinkage_|]. intros sh.
  apply preserves_bind; auto with frame. intros s.
  apply preserves_bind; [apply preserves_randn|]. intros Z.
  apply preserves_bind; auto with frame.
Qed.

Lemma preserves_resample_class sm X y acc item :
  preserves (resample_class sm X y acc item).
Proof.
  destruct acc as [[Xs ys] si], item as [c n]. unfold resample_class.
  apply preserves_bind; [apply preserves_choice|]. intros idx.
  apply preserves_bind.
  - destruct sm; [apply preserves_smoothed_block|].
    apply preserves_bind; auto with frame.
  - intros Xn. apply preserves_bind; auto with frame.
Qed.

(** *** The external routines *)

Lemma replicateM_length {A} n (c : M A) s l s' :
  replicateM n c s = (inr l, s') -> length l = n.
Proof.
  revert s l s'. induction n as [|n IH]; simpl; intros s l s' H.
  - inversion H. reflexivity.
  - apply bind_inr in H as (a & s1 & _ & H).
    apply bind_inr in H as (r & s2 & Hr & H).
    inversion H; subst. simpl. f_equal. eapply IH; eauto.
Qed.

Lemma replicateM_Forall {A} (P : A -> Prop) n (c : M A) :
  (forall s a s', c s = (inr a, s') -> P a) ->
  forall s l s', replicateM n c s = (inr l, s') -> Forall P l.
Proof.
  intros Hc. induction n as [|n IH]; simpl; intros s l s' H.
  - inversion H. constructor.
  - apply bind_inr in H as (a & s1 & Ha & H).
    apply bind_inr in H as (r & s2 & Hr & H).
    inversion H; subst. constructor; eauto.
Qed.

Lemma replicateM_total {A} n (c : M A) :
  (forall s, exists a s', c s = (inr a, s')) ->
  forall s, exists l s', replicateM n c s = (inr l, s').
Proof.
  intros Hc. induction n as [|n IH]; simpl; intros s.
  - now exists [], s.
  - destruct (Hc s) as (a & s1 & Ha).
    destruct (IH s1) as (l & s2 & Hl).
    exists (a :: l), s2.
    rewrite (bind_run _ _ _ Ha), (bind_run _ _ _ Hl). reflexivity.
Qed.

Lemma draw_total {A} (f : rng -> A * rng) (s : state) :
  exists a s', draw f s = (inr a, s').
Proof.
  unfold draw. destruct (f (random_state s)) as [a g]. eauto.
Qed.

Lemma draw_randint_lt high (s : state) a s' :
  0 < high -> draw (randint high) s = (inr a, s') -> a < high.
Proof.
  intros Hh. unfold draw.
  pose proof (@randint_lt RS high (random_state s) Hh) as Hlt.
  destruct (randint high (random_state s)) as [i g]. simpl in Hlt.
  intros H. inversion H; subst. exact Hlt.
Qed.

Lemma randn_shape d0 d1 (s : state) Z s' :
  randn d0 d1 s = (inr Z, s') ->
  length Z = d0 /\ Forall (fun z => length z = d1) Z.
Proof.
  unfold randn. intros H.
  apply bind_inr in H as ([] & s1 & _ & H). split.
  - eapply replicateM_length; eauto.
  - eapply replicateM_Forall; [|exact H].
    intros s2 z s3 Hz. eapply replicateM_length; eauto.
Qed.

Lemma randn_total d0 d1 (s : state) :
  exists Z s', randn d0 d1 s = (inr Z, s').
Proof.
  unfold randn, bind, record.
  apply replicateM_total. intros s1.
  apply replicateM_total. intros s2. apply draw_total.
Qed.

Lemma choice_inv a size (s : state) r s' :
  choice a size s = (inr r, s') ->
  length r = size /\ Forall (fun i => In i a) r.
Proof.
  unfold choice. intros H.
  apply bind_inr in H as ([] & s1 & _ & H).
  destruct (_ && _); [discriminate|].
  apply bind_inr in H as (idx & s2 & Hidx & H).
  destruct (safe_indexing a idx) as [r'|] eqn:Hr; [|discriminate].
  inversion H; subst.
  split.
  - rewrite (safe_indexing_length _ _ Hr). eapply replicateM_length; eauto.
  - eapply safe_indexing_In; eauto.
Qed.

Lemma choice_total a size (s : state) :
  a <> [] \/ size = 0 -> exists r s', choice a size s = (inr r, s').
Proof.
  intros Ha. unfold choice.
  rewrite (bind_run (record (call_choice size)) _ s eq_refl).
  assert (Hc : (length a =? 0) && negb (size =? 0) = false).
  { destruct Ha as [Ha| ->].
    - destruct a; [congruence|reflexivity].
    - simpl. apply andb_false_r. }
  rewrite Hc.
  match goal with |- exists r s', bind (replicateM size ?c) _ ?s1 = _ =>
    destruct (@replicateM_total _ size c (fun s2 => draw_total _ s2) s1)
      as (idx & s2 & Hidx)
  end.
  rewrite (bind_run _ _ _ Hidx).
  assert (Hlt : Forall (fun i => i < length a) idx).
  { destruct Ha as [Ha| ->].
    - eapply replicateM_Forall; [|exact Hidx].
      intros s3 i s4. apply draw_randint_lt. destruct a; [congruence|simpl; lia].
    - apply replicateM_length in Hidx. destruct idx; [constructor|discriminate]. }
  destruct (safe_indexing_total a Hlt) as (r & Hr).
  rewrite Hr. now exists r, s2.
Qed.

Lemma choice_empty size (s : state) :
  size <> 0 ->
  choice [] size s =
  (inl ValueError_choice,
   {| random_state := random_state s; shrinkage_ := shrinkage_ s;
      sample_indices_ := sample_indices_ s;
      calls := calls s ++ [call_choice size] |}).
Proof.
  intros Hs. unfold choice, bind, record. simpl.
  destruct size; [congruence|reflexivity].
Qed.

Lemma target_class_indices_spec (y : list label) c i :
  In i (flatnonzero (label_mask y c)) <-> nth_error y i = Some c.
Proof.
  unfold flatnonzero. rewrite flatnonzero_from_spec, Nat.sub_0_r.
  unfold label_mask. rewrite nth_error_map.
  destruct (nth_error y i) as [l|]; simpl.
  - destruct (eq_dec l c) as [->|Hne]; split; try tauto.
    + intros _. split; [lia|reflexivity].
    + intros [_ H]. discriminate.
    + intros H. congruence.
  - split; [intros [_ H]; discriminate | discriminate].
Qed.

(** *** The loop *)

Lemma smoothed_block_inv X c n pool idx (s : state) B s' :
  smoothed_block X c n pool idx s = (inr B, s') ->
  exists d sh X_class X_boot Z,
    shrinkage_ s = Some (Some d) /\ getitem d c = Some sh /\
    safe_indexing (rows X) pool = Some X_class /\
    safe_indexing (rows X) idx = Some X_boot /\
    drawn_randn (label := label) n (shape1 X) Z /\
    (shape1 X + 2) * shape0 X <> 0 /\
    B = appended_block X (perturbed sh X X_class X_boot Z).
Proof.
  unfold smoothed_block. intros H.
  apply bind_inr in H as ([] & s1 & Hz & H).
  destruct ((shape1 X + 2) * shape0 X =? 0) eqn:Hn; [discriminate|].
  inversion Hz; subst s1. apply Nat.eqb_neq in Hn.
  apply bind_inr in H as (X_class & s1 & Hc & H).
  apply liftO_inr in Hc as [Hc ->].
  apply bind_inr in H as (sh0 & s1 & Hsh & H).
  inversion Hsh; subst sh0 s1.
  apply bind_inr in H as (sh & s1 & Hs & H).
  apply liftO_inr in Hs as [Hs ->].
  apply bind_inr in H as (Z & s1 & HZ & H).
  apply bind_inr in H as (X_boot & s2 & Hb & H).
  apply liftO_inr in Hb as [Hb ->].
  inversion H; subst.
  destruct (shrinkage_ s) as [[d|]|]; try discriminate.
  exists d, sh, X_class, X_boot, Z.
  repeat split; auto. now exists s, s'.
Qed.

Lemma resample_class_inv sm X (y : list label) Xs ys si c n (s : state) acc s' :
  resample_class sm X y (Xs, ys, si) (c, n) s = (inr acc, s') ->
  exists r,
    class_result sm X y (shrinkage_ s) (c, n) r /\
    acc = (Xs ++ [res_block r], ys ++ [res_labels r], si ++ res_indices r).
Proof.
  unfold resample_class. intros H.
  apply bind_inr in H as (idx & s1 & Hch & H).
  pose proof Hch as Hf. apply preserves_choice in Hf as (Hshr & _).
  apply choice_inv in Hch as [Hlen Hin].
  apply bind_inr in H as (Xb & s2 & HX & H).
  apply bind_inr in H as (yb & s3 & Hy & H).
  apply liftO_inr in Hy as [Hy ->].
  inversion H; subst acc s'.
  exists (idx, Xb, yb). split; [|reflexivity].
  simpl. repeat split; auto.
  - eapply Forall_impl; [|exact Hin].
    intros i. apply target_class_indices_spec.
  - destruct sm.
    + apply smoothed_block_inv in HX.
      rewrite Hshr in HX. exact HX.
    + apply bind_inr in HX as (r & s4 & Hr & HX).
      apply liftO_inr in Hr as [Hr ->].
      inversion HX; subst. now exists r.
Qed.

Lemma foldM_resample_inv sm X (y : list label) l :
  forall Xs ys si (s : state) acc s',
    foldM (resample_class sm X y) (Xs, ys, si) l s = (inr acc, s') ->
    exists res,
      Forall2 (class_result sm X y (shrinkage_ s)) l res /\
      acc = (Xs ++ map res_block res, ys ++ map res_labels res,
             si ++ concat (map res_indices res)).
Proof.
  induction l as [|[c n] l IH]; cbn [foldM]; intros Xs ys si s acc s' H.
  - inversion H; subst. exists []. simpl. rewrite !app_nil_r. auto.
  - apply bind_inr in H as (acc1 & s1 & H1 & H).
    pose proof H1 as Hf. apply preserves_resample_class in Hf as (Hshr & _).
    apply resample_class_inv in H1 as (r & Hr & ->).
    apply IH in H as (res & Hres & ->).
    exists (r :: res). split.
    + constructor; [exact Hr|]. rewrite <- Hshr. exact Hres.
    + simpl. rewrite <- !app_assoc. reflexivity.
Qed.

(** *** Lines 151-178 *)

Lemma resolve_shrinkage_false shrinkage strategy X0 (s : state) :
  resolve_shrinkage false shrinkage strategy X0 s =
  (inr X0,
   {| random_state := random_state s; shrinkage_ := Some None;
      sample_indices_ := sample_indices_ s; calls := calls s |}).
Proof. reflexivity. Qed.

Lemma resolve_shrinkage_resolved shrinkage strategy X0 (s : state) d :
  resolves_to shrinkage strategy d ->
  resolve_shrinkage true shrinkage strategy X0 s =
  (match check_array X0 with
   | Some X => inr X
   | None => inl ValueError_numerical
   end,
   {| random_state := random_state s; shrinkage_ := Some (Some d);
      sample_indices_ := sample_indices_ s;
      calls := calls s ++ [call_check_array] |}).
Proof.
  unfold resolves_to, resolve_shrinkage.
  destruct shrinkage as [v|d']; [intros -> | intros [-> ->]];
    unfold bind, set_shrinkage_, record; simpl;
    destruct (check_array X0); reflexivity.
Qed.

Lemma resolve_shrinkage_missing d strategy X0 (s : state) :
  filter (fun k => negb (contains d k)) (keys strategy) <> [] ->
  resolve_shrinkage true (Dict d) strategy X0 s =
  (inl (ValueError_shrinkage
          (filter (fun k => negb (contains d k)) (keys strategy))), s).
Proof.
  unfold resolve_shrinkage. intros H.
  destruct (filter _ _); [congruence|reflexivity].
Qed.

(** Either the dict is rejected, or [shrinkage_] gets a value. *)
Lemma resolves_to_dec shrinkage (strategy : list (label * nat)) :
  (exists d, resolves_to shrinkage strategy d) \/
  (exists d, shrinkage = Dict d /\
             filter (fun k => negb (contains d k)) (keys strategy) <> []).
Proof.
  destruct shrinkage as [v|d]; simpl.
  - left. eauto.
  - destruct (filter (fun k => negb (contains d k)) (keys strategy)) eqn:Hf.
    + left. exists d. simpl. auto.
    + right. exists d. split; [reflexivity|]. rewrite Hf. discriminate.
Qed.

Lemma check_array_inv X0 X :
  check_array X0 = Some X ->
  forallb (forallb is_num) (rows X0) = true /\
  rows X = rows X0 /\ shape1 X = shape1 X0 /\ format X = format X0 /\
  dtype_ X = match dtype_ X0 with object_ => float64 | d => d end.
Proof.
  unfold check_array. destruct (forallb _ _); [|discriminate].
  intros H. inversion H; subst. simpl. auto.
Qed.

Lemma resolve_shrinkage_inv sm shrinkage strategy X0 (s : state) X s1 :
  resolve_shrinkage sm shrinkage strategy X0 s = (inr X, s1) ->
  rows X = rows X0 /\ shape1 X = shape1 X0 /\ format X = format X0 /\
  random_state s1 = random_state s /\
  sample_indices_ s1 = sample_indices_ s /\
  if sm then
    check_array X0 = Some X /\
    calls s1 = calls s ++ [call_check_array] /\
    exists d, shrinkage_ s1 = Some (Some d) /\ resolves_to shrinkage strategy d
  else
    X = X0 /\ calls s1 = calls s /\ shrinkage_ s1 = Some None.
Proof.
  destruct sm.
  - destruct (resolves_to_dec shrinkage strategy) as [[d Hd]|(d & -> & Hm)].
    + erewrite resolve_shrinkage_resolved by exact Hd.
      destruct (check_array X0) as [X'|] eqn:Hc; intros H; inversion H; subst.
      apply check_array_inv in Hc as (_ & Hr & Hs & Hf & _).
      simpl. repeat split; eauto.
    + rewrite resolve_shrinkage_missing by exact Hm. discriminate.
  - rewrite resolve_shrinkage_false. intros H. inversion H; subst.
    simpl. repeat split; auto.
Qed.

(** *** The whole method *)

Lemma fit_resample_inv sm shrinkage strategy X0 (y : list label) (s : state)
    X_res y_res s' :
  _fit_resample sm shrinkage strategy X0 y s = (inr (X_res, y_res), s') ->
  exists X s1 res,
    resolve_shrinkage sm shrinkage strategy X0 s = (inr X, s1) /\
    Forall2 (class_result sm X y (shrinkage_ s1)) strategy res /\
    X_res = vstack (format X) (shape1 X) (X :: map res_block res) /\
    y_res = y ++ concat (map res_labels res) /\
    sample_indices_ s' =
      Some (seq 0 (shape0 X) ++ concat (map res_indices res)) /\
    shrinkage_ s' = shrinkage_ s1 /\
    exists l, calls s' = calls s1 ++ l /\ ~ In call_check_array l.
Proof.
  unfold _fit_resample. intros H.
  apply bind_inr in H as (X & s1 & HX & H).
  apply bind_inr in H as (acc & s2 & Hloop & H).
  pose proof Hloop as Hf.
  apply preserves_foldM in Hf as (Hshr & _ & Hcalls);
    [|intros; apply preserves_resample_class].
  apply foldM_resample_inv in Hloop as (res & Hres & ->).
  apply bind_inr in H as ([] & s3 & Hset & H).
  inversion Hset; subst s3. inversion H; subst. simpl.
  exists X, s1, res. repeat split; auto.
  unfold issparse. destruct (format X); reflexivity.
Qed.

(** Once lines 151-178 are passed, the attributes [shrinkage_] keeps its value
    and [check_array] is not called again; a failure in the loop leaves
    [sample_indices_] as it was. *)
Lemma fit_resample_frame sm shrinkage strategy X0 (y : list label) (s : state)
    X s1 r s' :
  resolve_shrinkage sm shrinkage strategy X0 s = (inr X, s1) ->
  _fit_resample sm shrinkage strategy X0 y s = (r, s') ->
  shrinkage_ s' = shrinkage_ s1 /\
  (exists l, calls s' = calls s1 ++ l /\ ~ In call_check_array l) /\
  (forall e, r = inl e -> sample_indices_ s' = sample_indices_ s1).
Proof.
  intros HX. unfold _fit_resample. rewrite (bind_run _ _ _ HX).
  unfold bind at 1.
  destruct (foldM _ _ _ s1) as [[e|[[Xs ys] si]] s2] eqn:Hloop;
    (apply preserves_foldM in Hloop as (Hshr & Hsi & Hcalls);
      [|intros; apply preserves_resample_class]);
    intros H; inversion H; subst; simpl; repeat split; auto.
  discriminate.
Qed.

End Analysis.

(** ** Properties of the resampled data set *)

Lemma firstn_length_app {A} (a b : list A) n :
  length a = n -> firstn n (a ++ b) = a.
Proof.
  intros <-. rewrite firstn_app, Nat.sub_diag, firstn_all. simpl. apply app_nil_r.
Qed.

Lemma skipn_length_app {A} (a b : list A) n :
  length a = n -> skipn n (a ++ b) = b.
Proof.
  intros <-. rewrite skipn_app, Nat.sub_diag, skipn_all. reflexivity.
Qed.

Section Properties.

Context {label : Type} {label_eq : EqDec label} {RS : RandomState}.

Local Abbreviation state := (@state label RS).



(** *** Per-class blocks *)

Lemma class_result_labels sm X (y : list label) shr c n r :
  class_result sm X y shr (c, n) r -> res_labels r = repeat c n.
Proof.
  destruct r as [[idx Xb] yb]. simpl. intros (Hlen & Hall & Hy & _).
  apply safe_indexing_Forall2 in Hy. subst n.
  unfold res_labels. simpl.
  induction Hy as [|i l idx yb Hi _ IH]; simpl; [reflexivity|].
  inversion Hall; subst. f_equal; [congruence|auto].
Qed.

Lemma class_result_sources sm X (y : list label) shr strategy res :
  Forall2 (class_result sm X y shr) strategy res ->
  Forall2 (fun i l => nth_error y i = Some l)
          (concat (map res_indices res)) (concat (map res_labels res)).
Proof.
  intros H. apply Forall2_concat.
  induction H as [|item [[idx Xb] yb] l r H _ IH]; simpl; constructor; auto.
  destruct H as (_ & _ & Hy & _). now apply safe_indexing_Forall2.
Qed.

Lemma count_occ_repeat (c C : label) n :
  count_occ eq_dec (repeat c n) C = if eq_dec c C then n else 0.
Proof.
  induction n as [|n IH]; simpl.
  - now destruct (eq_dec c C).
  - destruct (eq_dec c C); simpl; auto.
Qed.

Lemma count_occ_other_classes sm X (y : list label) shr strategy res C :
  Forall2 (class_result sm X y shr) strategy res ->
  ~ In C (keys strategy) ->
  count_occ eq_dec (concat (map res_labels res)) C = 0.
Proof.
  induction 1 as [|[c n] r l rs H _ IH]; simpl; intros Hn; [reflexivity|].
  apply class_result_labels in H.
  rewrite count_occ_app, H, count_occ_repeat.
  destruct (eq_dec c C) as [->|_]; [tauto|]. simpl. apply IH. tauto.
Qed.

Lemma madd_length A B : length (madd A B) = Nat.min (length A) (length B).
Proof.
  revert B. induction A as [|a A IH]; intros [|b B]; simpl; auto.
Qed.

Lemma dot_length A B : length (dot A B) = length A.
Proof. unfold dot. apply length_map. Qed.

Lemma drawn_randn_shape d0 d1 Z :
  drawn_randn (label := label) d0 d1 Z ->
  length Z = d0 /\ Forall (fun z => length z = d1) Z.
Proof. intros (sa & sb & H). eapply randn_shape; eauto. Qed.

Lemma appended_block_length X P : length (rows (appended_block X P)) = length P.
Proof.
  unfold appended_block. destruct (issparse X); simpl; apply length_map.
Qed.

Lemma class_result_size sm X (y : list label) shr c n r :
  class_result sm X y shr (c, n) r ->
  length (res_indices r) = n /\ length (res_labels r) = n /\
  length (rows (res_block r)) = n.
Proof.
  intros H. pose proof H as Hl. apply class_result_labels in Hl.
  destruct r as [[idx Xb] yb]. unfold res_indices, res_labels, res_block in *.
  simpl in *. destruct H as (Hlen & _ & _ & HX).
  split; [exact Hlen|]. split; [rewrite Hl; apply repeat_length|].
  destruct sm.
  - destruct HX as (d & sh & Xc & Xbt & Z & _ & _ & _ & Hb & HZ & _ & ->).
    apply drawn_randn_shape in HZ as [HZ _].
    apply safe_indexing_length in Hb.
    rewrite appended_block_length. unfold perturbed.
    rewrite madd_length, dot_length, length_map. lia.
  - destruct HX as (r & Hr & ->). simpl.
    apply safe_indexing_length in Hr. lia.
Qed.

Lemma class_result_sizes sm X (y : list label) shr strategy res :
  Forall2 (class_result sm X y shr) strategy res ->
  length (concat (map res_indices res)) = list_sum (map snd strategy) /\
  length (concat (map res_labels res)) = list_sum (map snd strategy) /\
  length (concat (map (fun r => rows (res_block r)) res)) =
    list_sum (map snd strategy).
Proof.
  induction 1 as [|[c n] r l rs H _ (IH1 & IH2 & IH3)]; simpl; auto.
  apply class_result_size in H as (H1 & H2 & H3).
  rewrite !length_app. repeat split; congruence.
Qed.

Lemma class_result_split sm X (y : list label) shr pre item post res :
  Forall2 (class_result sm X y shr) (pre ++ item :: post) res ->
  exists res1 r res2,
    res = res1 ++ r :: res2 /\
    Forall2 (class_result sm X y shr) pre res1 /\
    class_result sm X y shr item r /\
    Forall2 (class_result sm X y shr) post res2.
Proof.
  intros H. apply Forall2_app_inv_l in H as (res1 & res' & H1 & H2 & ->).
  inversion H2 as [|? r ? res2 Hr Hpost]; subst.
  exists res1, r, res2. auto.
Qed.

Lemma skipn_add_app {A} (a b : list A) n m :
  length a = n -> skipn (n + m) (a ++ b) = skipn m b.
Proof.
  intros H. rewrite Nat.add_comm, <- skipn_skipn.
  now rewrite skipn_length_app.
Qed.

(** The part of a stacked sequence that belongs to the entry after [pre]. *)
Lemma block_of_class {A} (orig : list A) (b1 b b2 : list A) N n1 n :
  length orig = N -> length b1 = n1 -> length b = n ->
  firstn n (skipn (N + n1) (orig ++ (b1 ++ b ++ b2))) = b.
Proof.
  intros HN H1 Hn.
  rewrite skipn_add_app by exact HN.
  rewrite skipn_length_app by exact H1.
  now apply firstn_length_app.
Qed.

(** C1. After a successful call, for the entry (C, K) of the target mapping:
    exactly K of the rows after the N original ones carry the label C; every new
    row carries the label of the row whose index was drawn for it; and the K
    indices recorded for C are indices of rows of the input whose label is C
    (the corresponding K labels of the output are all C). *)
Theorem fit_resample_class_rows sm shrinkage pre C K post X0 (y : list label)
    (s : state) X_res y_res s' :
  _fit_resample sm shrinkage (pre ++ (C, K) :: post) X0 y s
    = (inr (X_res, y_res), s') ->
  NoDup (keys (pre ++ (C, K) :: post)) ->
  length y = shape0 X0 ->
  exists sample_indices,
    sample_indices_ s' = Some sample_indices /\
    count_occ eq_dec (skipn (shape0 X0) y_res) C = K /\
    Forall2 (fun i l => nth_error y i = Some l)
            (skipn (shape0 X0) sample_indices) (skipn (shape0 X0) y_res) /\
    let offset := shape0 X0 + list_sum (map snd pre) in
    length (firstn K (skipn offset sample_indices)) = K /\
    Forall (fun i => nth_error y i = Some C)
           (firstn K (skipn offset sample_indices)) /\
    firstn K (skipn offset y_res) = repeat C K.
Proof.
  intros H Hnd Hy.
  apply fit_resample_inv in H
    as (X & s1 & res & HX & Hres & -> & -> & Hsi & _).
  apply resolve_shrinkage_inv in HX as (Hrows & _).
  assert (HN : shape0 X = shape0 X0) by (unfold shape0; congruence).
  rewrite HN in Hsi.
  eexists. split; [exact Hsi|].
  rewrite (skipn_length_app y _ Hy).
  rewrite (skipn_length_app (seq 0 (shape0 X0)) _ (length_seq _ _)).
  split; [|split; [eapply class_result_sources; eauto|]].
  - apply class_result_split in Hres
      as (res1 & r & res2 & -> & H1 & Hr & H2).
    unfold keys in Hnd. rewrite map_app in Hnd. simpl in Hnd.
    apply NoDup_remove_2 in Hnd. rewrite in_app_iff in Hnd.
    rewrite map_app, concat_app. simpl.
    rewrite !count_occ_app.
    apply (count_occ_other_classes C) in H1; [|unfold keys; tauto].
    apply (count_occ_other_classes C) in H2; [|unfold keys; tauto].
    apply class_result_labels in Hr.
    rewrite H1, H2, Hr, count_occ_repeat.
    destruct (eq_dec C C); [lia|congruence].
  - apply class_result_split in Hres
      as (res1 & r & res2 & -> & H1 & Hr & H2).
    apply class_result_sizes in H1 as (L1 & L2 & _).
    pose proof Hr as Hs. apply class_result_size in Hs as (S1 & S2 & _).
    pose proof Hr as Hlab. apply class_result_labels in Hlab.
    rewrite !map_app, !concat_app. simpl.
    rewrite (block_of_class (seq 0 (shape0 X0)) _ _ _ (length_seq _ _) L1 S1).
    rewrite (block_of_class y _ _ _ Hy L2 S2).
    repeat split; auto.
    destruct r as [[idx Xb] yb]. destruct Hr as (_ & Hall & _). exact Hall.
Qed.

Lemma rows_vstack fmt f X (res : list (list nat * matrix * list label)) :
  rows (vstack fmt f (X :: map res_block res)) =
  rows X ++ concat (map (fun r => rows (res_block r)) res).
Proof. simpl. now rewrite map_map. Qed.

Lemma class_result_plain_rows X (y : list label) shr strategy res :
  Forall2 (class_result false X y shr) strategy res ->
  Forall2 (fun i row => nth_error (rows X) i = Some row)
          (concat (map res_indices res))
          (concat (map (fun r => rows (res_block r)) res)).
Proof.
  intros H. apply Forall2_concat.
  induction H as [|item [[idx Xb] yb] l r H _ IH]; simpl; constructor; auto.
  destruct H as (_ & _ & _ & rs & Hrs & ->). simpl.
  now apply safe_indexing_Forall2.
Qed.

(** C4. Without smoothing, every row after the N original ones is a row of X,
    cell for cell: the row whose index was drawn for it, which carries the same
    label as the generated row. *)
Theorem fit_resample_plain_duplicates shrinkage strategy X0 (y : list label)
    (s : state) X_res y_res s' :
  _fit_resample false shrinkage strategy X0 y s = (inr (X_res, y_res), s') ->
  length y = shape0 X0 ->
  exists sample_indices,
    sample_indices_ s' = Some sample_indices /\
    Forall2 (fun i row => nth_error (rows X0) i = Some row)
            (skipn (shape0 X0) sample_indices) (skipn (shape0 X0) (rows X_res)) /\
    forall j row l,
      shape0 X0 <= j ->
      nth_error (rows X_res) j = Some row ->
      nth_error y_res j = Some l ->
      exists i, nth_error sample_indices j = Some i /\
                nth_error (rows X0) i = Some row /\
                nth_error y i = Some l.
Proof.
  intros H Hy.
  apply fit_resample_inv in H
    as (X & s1 & res & HX & Hres & -> & -> & Hsi & _).
  apply resolve_shrinkage_inv in HX as (_ & _ & _ & _ & _ & -> & _).
  eexists. split; [exact Hsi|].
  rewrite rows_vstack.
  rewrite (skipn_length_app (seq 0 (shape0 X0)) _ (length_seq _ _)).
  rewrite (skipn_length_app (rows X0) _ eq_refl).
  pose proof (class_result_plain_rows Hres) as Hrows.
  pose proof (class_result_sources Hres) as Hlab.
  split; [exact Hrows|].
  intros j row l Hj Hrow Hl.
  rewrite nth_error_app2 in Hrow by (unfold shape0 in Hj; lia).
  rewrite nth_error_app2 in Hl by lia.
  rewrite nth_error_app2 by (rewrite length_seq; lia).
  rewrite length_seq. fold (shape0 X0) in Hrow. rewrite Hy in Hl.
  destruct (Forall2_nth_error _ Hrows Hrow) as (i & Hi & Hir).
  destruct (Forall2_nth_error _ Hlab Hl) as (i' & Hi' & Hil).
  exists i. split; [exact Hi|]. split; [exact Hir|]. congruence.
Qed.

(** *** The perturbation, entry by entry *)



Lemma hd_diagflat_length v : length (hd [] (diagflat v)) = length v.
Proof.
  unfold diagflat. destruct v as [|x v]; [reflexivity|].
  cbn [length seq map hd]. now rewrite length_map, length_seq.
Qed.


Lemma dot_diagflat_row_length Z v r :
  r < length Z -> length (nth r (dot Z (diagflat v)) []) = length v.
Proof.
  intros Hr. unfold dot. rewrite hd_diagflat_length.
  set (F := fun a : list R =>
              map (fun j => inner a (column j (diagflat v))) (seq 0 (length v))).
  rewrite (nth_indep _ [] (F [])) by (rewrite length_map; lia).
  rewrite (map_nth F). unfold F. now rewrite length_map, length_seq.
Qed.

Lemma vadd_length a b : length (vadd a b) = Nat.min (length a) (length b).
Proof.
  revert b. induction a as [|x a IH]; intros [|y b]; simpl; auto.
Qed.


Lemma madd_nth A B r :
  r < length A -> r < length B ->
  nth r (madd A B) [] = vadd (nth r A []) (nth r B []).
Proof.
  revert B r. induction A as [|a A IH]; intros [|b B] [|r]; simpl; intros;
    try lia; auto. apply IH; lia.
Qed.

Lemma X_class_scale_length X X_class : length (X_class_scale X X_class) = shape1 X.
Proof.
  unfold X_class_scale, np_std, mean_variance_axis.
  destruct (issparse X); simpl; now rewrite ?length_map, length_seq.
Qed.


Lemma perturbed_shape s X X_class X_boot Z :
  Forall (fun z => length z = shape1 X) Z ->
  Forall (fun x => length x = shape1 X) X_boot ->
  length Z = length X_boot ->
  length (perturbed s X X_class X_boot Z) = length Z /\
  Forall (fun p => length p = shape1 X) (perturbed s X X_class X_boot Z).
Proof.
  intros HZ HX Hlen. unfold perturbed.
  assert (HL : length (madd (dot Z (smoothing_matrix s X X_class))
                            (map (map as_float) X_boot)) = length Z).
  { rewrite madd_length, dot_length, length_map. lia. }
  split; [exact HL|].
  apply Forall_forall. intros p Hp.
  destruct (In_nth _ _ [] Hp) as (r & Hr & <-).
  rewrite HL in Hr.
  rewrite madd_nth by (rewrite ?dot_length, ?length_map; lia).
  rewrite vadd_length. unfold smoothing_matrix.
  rewrite dot_diagflat_row_length by lia.
  rewrite length_map, X_class_scale_length.
  rewrite (nth_indep _ [] (map as_float [])) by (rewrite length_map; lia).
  rewrite (map_nth (map as_float)), length_map.
  rewrite Forall_forall in HX. rewrite (HX (nth r X_boot [])); [lia|].
  apply nth_In. lia.
Qed.


Lemma safe_indexing_rows_shape X idx r :
  well_shaped X -> safe_indexing (rows X) idx = Some r ->
  Forall (fun x => length x = shape1 X) r.
Proof.
  intros HX Hr. apply safe_indexing_In in Hr.
  unfold well_shaped in HX. rewrite Forall_forall in *. auto.
Qed.


Lemma issparse_format X X0 : format X = format X0 -> issparse X = issparse X0.
Proof. unfold issparse. now intros ->. Qed.










(** *** Shrinkage resolution and numeric validation *)

Lemma getitem_broadcast (v : R) (strategy : list (label * nat)) C :
  In C (keys strategy) ->
  getitem (map (fun kn => (fst kn, v)) strategy) C = Some v.
Proof.
  induction strategy as [|[c n] l IH]; simpl; [tauto|].
  intros [->|H].
  - destruct (eq_dec C C); [reflexivity|congruence].
  - destruct (eq_dec c C); [reflexivity|auto].
Qed.

Lemma contains_false {V} (d : list (label * V)) C :
  negb (contains d C) = true <-> getitem d C = None.
Proof.
  unfold contains. destruct (getitem d C); simpl; split; congruence.
Qed.

Lemma fit_resample_raise_early sm shrinkage strategy X0 (y : list label)
    (s : state) e s1 :
  resolve_shrinkage sm shrinkage strategy X0 s = (inl e, s1) ->
  _fit_resample sm shrinkage strategy X0 y s = (inl e, s1).
Proof. intros H. unfold _fit_resample, bind. now rewrite H. Qed.

Lemma real_shrinkage_broadcast v strategy X0 (y : list label) (s : state) :
  shrinkage_ (snd (_fit_resample true (Real v) strategy X0 y s))
    = Some (Some (map (fun kn => (fst kn, v)) strategy)) /\
  keys (map (fun kn => (fst kn, v)) strategy) = keys strategy.
Proof.
  split.
  - pose proof (@resolve_shrinkage_resolved _ _ _ (Real v) strategy X0 s _ eq_refl)
      as Hres.
    destruct (check_array X0) as [X|] eqn:Hchk.
    + destruct (_fit_resample true (Real v) strategy X0 y s) as [r s'] eqn:Hrun.
      destruct (@fit_resample_frame _ _ _ true (Real v) strategy X0 y s _ _ _ _
                  Hres Hrun) as (Hshr & _).
      simpl. rewrite Hshr. reflexivity.
    + rewrite (@fit_resample_raise_early true (Real v) strategy X0 y s _ _ Hres).
      reflexivity.
  - unfold keys. rewrite map_map. reflexivity.
Qed.

(** C6. With smoothing enabled: a real shrinkage s makes of [shrinkage_] the
    mapping {C: s} over the classes of the target mapping, whatever happens
    afterwards; a dict without an entry for some class of the target mapping
    makes the call raise the error that lists exactly the missing classes, in
    the state the call started from (nothing drawn, no routine called). *)
Theorem shrinkage_resolution strategy X0 (y : list label) (s : state) :
  (forall v,
     shrinkage_ (snd (_fit_resample true (Real v) strategy X0 y s))
       = Some (Some (map (fun kn => (fst kn, v)) strategy)) /\
     keys (map (fun kn => (fst kn, v)) strategy) = keys strategy /\
     forall C, In C (keys strategy) ->
               getitem (map (fun kn => (fst kn, v)) strategy) C = Some v) /\
  (forall d,
     (exists C, In C (keys strategy) /\ getitem d C = None) ->
     exists missing,
       _fit_resample true (Dict d) strategy X0 y s
         = (inl (ValueError_shrinkage missing), s) /\
       forall C, In C missing <-> In C (keys strategy) /\ getitem d C = None).
Proof.
  split.
  - intros v. destruct (real_shrinkage_broadcast v strategy X0 y s) as (Ha & Hb).
    split; [exact Ha|]. split; [exact Hb|].
    intros C. apply getitem_broadcast.
  - intros d (C & HC & Hnone).
    set (missing := filter (fun k => negb (contains d k)) (keys strategy)).
    assert (Hin : forall C, In C missing <-> In C (keys strategy) /\ getitem d C = None).
    { intros C'. unfold missing. rewrite filter_In, contains_false. tauto. }
    exists missing. split; [|exact Hin].
    apply fit_resample_raise_early, resolve_shrinkage_missing.
    fold missing. intros Hnil.
    assert (HCm : In C missing) by (apply Hin; auto).
    rewrite Hnil in HCm. contradiction.
Qed.

Lemma count_check_array_notin l :
  ~ In call_check_array l -> count_check_array l = 0.
Proof.
  unfold count_check_array. induction l as [|c l IH]; simpl; [reflexivity|].
  intros H. destruct c; simpl; [tauto|apply IH; tauto..].
Qed.

Lemma count_check_array_app l1 l2 :
  count_check_array (l1 ++ l2) = count_check_array l1 + count_check_array l2.
Proof.
  unfold count_check_array. now rewrite filter_app, length_app.
Qed.

Lemma check_array_non_numeric X0 : non_numeric X0 -> check_array X0 = None.
Proof.
  intros (row & str & Hrow & Hstr). unfold check_array.
  destruct (forallb (forallb is_num) (rows X0)) eqn:H; [|reflexivity].
  rewrite forallb_forall in H. specialize (H row Hrow).
  rewrite forallb_forall in H. specialize (H _ Hstr). discriminate.
Qed.

(** C7 (amended). With smoothing enabled, [check_array] is called at most once
    per call of the method, whatever the number of classes: exactly once when
    the shrinkage parameter resolves, and not at all when the call is rejected
    for an incomplete shrinkage dict. When X holds non-numeric content the call
    ends with an exception (the one for non-numerical data, or the one for the
    incomplete dict), nothing has been drawn, no routine other than
    [check_array] has been called and [sample_indices_] is unchanged. *)
Theorem numeric_validation shrinkage strategy X0 (y : list label) (s : state) :
  let out := _fit_resample true shrinkage strategy X0 y s in
  (exists l,
     calls (snd out) = calls s ++ l /\
     count_check_array l <= 1 /\
     ((exists d, resolves_to shrinkage strategy d) -> count_check_array l = 1) /\
     ((forall d, ~ resolves_to shrinkage strategy d) -> count_check_array l = 0)) /\
  (non_numeric X0 ->
   exists e,
     fst out = inl e /\
     (e = ValueError_numerical \/ exists missing, e = ValueError_shrinkage missing) /\
     random_state (snd out) = random_state s /\
     sample_indices_ (snd out) = sample_indices_ s /\
     (calls (snd out) = calls s \/ calls (snd out) = calls s ++ [call_check_array])).
Proof.
  intros out. subst out.
  destruct (resolves_to_dec shrinkage strategy) as [[d Hd]|(d & -> & Hm)].
  - pose proof (@resolve_shrinkage_resolved _ _ _ shrinkage strategy X0 s d Hd)
      as Hres.
    split.
    + destruct (check_array X0) as [X|] eqn:Hchk.
      * destruct (_fit_resample true shrinkage strategy X0 y s) as [r s'] eqn:Hrun.
        destruct (@fit_resample_frame _ _ _ true shrinkage strategy X0 y s _ _ _ _
                    Hres Hrun) as (_ & (l & Hl & Hnot) & _).
        simpl in Hl. simpl snd.
        exists (call_check_array :: l).
        assert (Hc : count_check_array (call_check_array :: l) = 1).
        { change (call_check_array :: l) with ([call_check_array] ++ l).
          rewrite count_check_array_app, (count_check_array_notin _ Hnot).
          reflexivity. }
        rewrite Hl, <- app_assoc, Hc. repeat split; auto.
        intros Hno. exfalso. eapply Hno; eauto.
      * rewrite (@fit_resample_raise_early true shrinkage strategy X0 y s _ _ Hres).
        simpl. exists [call_check_array]. repeat split; auto.
        intros Hno. exfalso. eapply Hno; eauto.
    + intros Hnn. apply check_array_non_numeric in Hnn. rewrite Hnn in Hres.
      rewrite (@fit_resample_raise_early true shrinkage strategy X0 y s _ _ Hres).
      simpl. exists ValueError_numerical. repeat split; auto.
  - pose proof (@resolve_shrinkage_missing _ _ _ d strategy X0 s Hm) as Hres.
    rewrite (@fit_resample_raise_early true (Dict d) strategy X0 y s _ _ Hres).
    simpl. split.
    + exists []. rewrite app_nil_r. repeat split; auto.
      intros (d' & _ & Hd'). congruence.
    + intros _. eexists. repeat split; eauto.
Qed.

(** *** Termination without exception, and the empty pool *)

Lemma pool_bound (y : list label) c :
  Forall (fun i => i < length y) (flatnonzero (label_mask y c)).
Proof.
  apply Forall_forall. intros i Hi.
  apply target_class_indices_spec in Hi.
  apply nth_error_Some. congruence.
Qed.

Lemma pool_nonempty (y : list label) c :
  In c y -> flatnonzero (label_mask y c) <> [].
Proof.
  intros Hc. apply In_nth_error in Hc as (i & Hi).
  apply target_class_indices_spec in Hi.
  intros Hnil. rewrite Hnil in Hi. contradiction.
Qed.

Lemma pool_empty (y : list label) c :
  ~ In c y -> flatnonzero (label_mask y c) = [].
Proof.
  intros Hc. destruct (flatnonzero (label_mask y c)) as [|i l] eqn:Hp; [reflexivity|].
  exfalso. apply Hc.
  assert (Hi : In i (flatnonzero (label_mask y c))) by (rewrite Hp; now left).
  apply target_class_indices_spec in Hi. eapply nth_error_In; eauto.
Qed.

Lemma smoothed_block_total X c n pool idx (s : state) d v :
  (shape1 X + 2) * shape0 X <> 0 ->
  Forall (fun i => i < shape0 X) pool ->
  Forall (fun i => i < shape0 X) idx ->
  shrinkage_ s = Some (Some d) -> getitem d c = Some v ->
  exists B s', smoothed_block X c n pool idx s = (inr B, s').
Proof.
  intros Hn Hpool Hidx Hd Hv. unfold smoothed_block.
  apply Nat.eqb_neq in Hn. rewrite Hn.
  destruct (safe_indexing_total (rows X) Hpool) as (Xc & HXc).
  destruct (safe_indexing_total (rows X) Hidx) as (Xb & HXb).
  rewrite HXc, HXb.
  unfold bind at 1, ret at 1. unfold bind at 1, liftO at 1, ret at 1.
  unfold bind at 1, get_shrinkage_. rewrite Hd, Hv.
  unfold bind at 1, liftO at 1, ret at 1.
  destruct (randn_total n (shape1 X) s) as (Z & s1 & HZ).
  rewrite (bind_run _ _ _ HZ).
  unfold bind, liftO, ret. eauto.
Qed.

Lemma resample_class_total sm X (y : list label) acc c n (s : state) :
  length y = shape0 X ->
  n = 0 \/ In c y ->
  (sm = true ->
   (shape1 X + 2) * shape0 X <> 0 /\
   exists d v, shrinkage_ s = Some (Some d) /\ getitem d c = Some v) ->
  exists acc' s', resample_class sm X y acc (c, n) s = (inr acc', s').
Proof.
  intros Hy Hpool Hsm. destruct acc as [[Xs ys] si]. unfold resample_class.
  destruct (@choice_total _ _ (flatnonzero (label_mask y c)) n s)
    as (idx & s1 & Hch).
  { destruct Hpool as [->|Hc]; [now right|left; now apply pool_nonempty]. }
  rewrite (bind_run _ _ _ Hch).
  pose proof Hch as Hf. apply preserves_choice in Hf as (Hshr & _).
  apply choice_inv in Hch as (_ & Hin).
  assert (Hidx : Forall (fun i => i < length y) idx).
  { pose proof (pool_bound y c) as Hb. rewrite Forall_forall in *.
    intros i Hi. auto. }
  destruct (safe_indexing_total y Hidx) as (yb & Hyb).
  rewrite Hy in Hidx.
  destruct sm.
  - destruct (Hsm eq_refl) as (Hn & d & v & Hd & Hv).
    destruct (@smoothed_block_total X c n (flatnonzero (label_mask y c)) idx s1 d v)
      as (B & s2 & HB); auto.
    { rewrite <- Hy. apply pool_bound. }
    { congruence. }
    rewrite (bind_run _ _ _ HB), Hyb. unfold bind, liftO, ret. eauto.
  - destruct (safe_indexing_total (rows X) Hidx) as (r & Hr).
    rewrite Hr, Hyb. unfold bind, liftO, ret. eauto.
Qed.

Lemma foldM_resample_total sm X (y : list label) l :
  length y = shape0 X ->
  Forall (fun item => snd item = 0 \/ In (fst item) y) l ->
  forall acc (s : state),
    (sm = true ->
     (shape1 X + 2) * shape0 X <> 0 /\
     exists d, shrinkage_ s = Some (Some d) /\
               forall c, In c (keys l) -> exists v, getitem d c = Some v) ->
    exists acc' s', foldM (resample_class sm X y) acc l s = (inr acc', s').
Proof.
  intros Hy. induction 1 as [|[c n] l Hc _ IH]; intros acc s Hsm; cbn [foldM].
  - unfold ret. eauto.
  - destruct (@resample_class_total sm X y acc c n s Hy Hc) as (acc1 & s1 & H1).
    { intros Htrue. destruct (Hsm Htrue) as (Hn & d & Hd & Hk).
      split; [exact Hn|]. destruct (Hk c) as (v & Hv); [now left|]. eauto. }
    rewrite (bind_run _ _ _ H1).
    pose proof H1 as Hf. apply preserves_resample_class in Hf as (Hshr & _).
    apply IH. intros Htrue. destruct (Hsm Htrue) as (Hn & d & Hd & Hk).
    split; [exact Hn|]. exists d. split; [congruence|].
    intros c' Hc'. apply Hk. now right.
Qed.

Lemma resolves_to_getitem shrinkage (strategy : list (label * nat)) d c :
  resolves_to shrinkage strategy d -> In c (keys strategy) ->
  exists v, getitem d c = Some v.
Proof.
  destruct shrinkage as [v|d']; simpl.
  - intros -> Hc. exists v. now apply getitem_broadcast.
  - intros [-> Hf] Hc.
    destruct (getitem d' c) as [v|] eqn:Hv; [eauto|exfalso].
    assert (Hin : In c (filter (fun k => negb (contains d' k)) (keys strategy))).
    { apply filter_In. split; [exact Hc|]. now apply contains_false. }
    rewrite Hf in Hin. contradiction.
Qed.


Lemma resolve_shrinkage_keeps sm shrinkage strategy X0 (s : state) r s1 :
  resolve_shrinkage sm shrinkage strategy X0 s = (r, s1) ->
  sample_indices_ s1 = sample_indices_ s /\ random_state s1 = random_state s.
Proof.
  destruct sm.
  - destruct (resolves_to_dec shrinkage strategy) as [[d Hd]|(d & -> & Hm)].
    + erewrite resolve_shrinkage_resolved by exact Hd.
      intros H. inversion H; subst. auto.
    + rewrite resolve_shrinkage_missing by exact Hm.
      intros H. inversion H; subst. auto.
  - rewrite resolve_shrinkage_false. intros H. inversion H; subst. auto.
Qed.

Lemma resample_class_empty_pool sm X (y : list label) acc C K (s : state) :
  ~ In C y -> K <> 0 ->
  resample_class sm X y acc (C, K) s =
  (inl ValueError_choice,
   {| random_state := random_state s; shrinkage_ := shrinkage_ s;
      sample_indices_ := sample_indices_ s;
      calls := calls s ++ [call_choice K] |}).
Proof.
  intros HC HK. destruct acc as [[Xs ys] si]. unfold resample_class.
  rewrite (pool_empty _ _ HC). unfold bind at 1.
  now rewrite (choice_empty s HK).
Qed.

Lemma foldM_app {A B} (f : A -> B -> @M label RS A) l1 l2 a (s : state) :
  foldM f a (l1 ++ l2) s = bind (foldM f a l1) (fun a' => foldM f a' l2) s.
Proof.
  revert a s. induction l1 as [|b l1 IH]; intros a s; cbn [foldM app].
  - unfold bind, ret. reflexivity.
  - unfold bind in *. destruct (f a b s) as [[e|a1] s1]; [reflexivity|].
    apply IH.
Qed.

Lemma foldM_fails {A B} (f : A -> B -> @M label RS A) item pre post :
  (forall a (s : state), exists e s', f a item s = (inl e, s')) ->
  forall a (s : state),
    exists e s', foldM f a (pre ++ item :: post) s = (inl e, s').
Proof.
  intros Hf a s. rewrite foldM_app. unfold bind.
  destruct (foldM f a pre s) as [[e|a1] s1]; [eauto|].
  cbn [foldM]. unfold bind.
  destruct (Hf a1 s1) as (e & s2 & ->). eauto.
Qed.

(** C8 (amended). When the target mapping asks for K > 0 rows of a class C
    that no row of the input carries, the call ends with an exception and
    [sample_indices_] is left as it was; when nothing fails before the turn of
    C comes, the exception is the one of [choice]. *)
Theorem empty_pool_aborts sm shrinkage pre C K post X0 (y : list label)
    (s : state) :
  ~ In C y -> K <> 0 ->
  let out := _fit_resample sm shrinkage (pre ++ (C, K) :: post) X0 y s in
  (exists e, fst out = inl e /\ sample_indices_ (snd out) = sample_indices_ s) /\
  (length y = shape0 X0 ->
   Forall (fun item => snd item = 0 \/ In (fst item) y) pre ->
   (sm = true ->
    0 < shape0 X0 /\
    forallb (forallb is_num) (rows X0) = true /\
    exists d, resolves_to shrinkage (pre ++ (C, K) :: post) d) ->
   fst out = inl ValueError_choice).
Proof.
  intros HC HK out. subst out.
  set (strategy := pre ++ (C, K) :: post).
  destruct (resolve_shrinkage sm shrinkage strategy X0 s) as [[e|X] s1] eqn:HX.
  - rewrite (@fit_resample_raise_early sm shrinkage strategy X0 y s _ _ HX).
    pose proof HX as Hk. apply resolve_shrinkage_keeps in Hk as (Hsi & _).
    simpl. split; [eauto|].
    intros _ _ Hsm. exfalso. destruct sm.
    + destruct (Hsm eq_refl) as (_ & Hnum & d & Hd).
      erewrite resolve_shrinkage_resolved in HX by exact Hd.
      unfold check_array in HX. rewrite Hnum in HX. discriminate.
    + rewrite resolve_shrinkage_false in HX. discriminate.
  - pose proof HX as Hk. apply resolve_shrinkage_keeps in Hk as (Hsi & _).
    split.
    + destruct (@foldM_fails _ _ (resample_class sm X y) (C, K) pre post)
        with (a := ([X], [y], seq 0 (shape0 X))) (s := s1) as (e & s2 & Hloop).
      { intros a s0. rewrite (@resample_class_empty_pool sm X y a C K s0 HC HK). eauto. }
      destruct (_fit_resample sm shrinkage strategy X0 y s) as [r s'] eqn:Hrun.
      pose proof (@fit_resample_frame _ _ _ sm shrinkage strategy X0 y s _ _ _ _
                    HX Hrun) as (_ & _ & Hfail).
      unfold _fit_resample in Hrun. rewrite (bind_run _ _ _ HX) in Hrun.
      fold strategy in Hloop. unfold bind in Hrun. rewrite Hloop in Hrun.
      inversion Hrun; subst. simpl. exists e. split; [reflexivity|].
      rewrite (Hfail e eq_refl). exact Hsi.
    + intros Hy Hpre Hsm.
      pose proof HX as Hinv.
      apply resolve_shrinkage_inv in Hinv as (Hrows & Hf & _ & _ & _ & Hcase).
      assert (HN : shape0 X = shape0 X0) by (unfold shape0; congruence).
      destruct (@foldM_resample_total sm X y pre) with
        (acc := ([X], [y], seq 0 (shape0 X))) (s := s1)
        as (acc1 & s2 & Hloop); auto; try congruence.
      { intros ->. destruct (Hsm eq_refl) as (Hpos & _ & _).
        destruct Hcase as (_ & _ & d & Hd & Hres).
        split; [rewrite HN; nia|].
        exists d. split; [exact Hd|]. intros c Hc.
        eapply resolves_to_getitem; eauto.
        unfold strategy, keys in *. rewrite map_app, in_app_iff. now left. }
      unfold _fit_resample. rewrite (bind_run _ _ _ HX).
      unfold bind at 1. unfold strategy.
      rewrite foldM_app. rewrite (bind_run _ _ _ Hloop).
      cbn [foldM]. unfold bind at 1.
      rewrite (@resample_class_empty_pool sm X y acc1 C K s2 HC HK). reflexivity.
Qed.

(** *** Representation of the output *)

Lemma promote_same d : promote d d = d.
Proof. now destruct d. Qed.

Lemma fold_promote_same d (bs : list matrix) :
  Forall (fun b => dtype_ b = d) bs ->
  fold_left promote (map dtype_ bs) d = d.
Proof.
  induction 1 as [|b bs Hb _ IH]; simpl; [reflexivity|].
  now rewrite Hb, promote_same.
Qed.

Lemma class_result_sparse_dtype sm X (y : list label) shr item r :
  issparse X = true ->
  class_result sm X y shr item r -> dtype_ (res_block r) = dtype_ X.
Proof.
  intros Hsp. destruct r as [[idx Xb] yb]. unfold res_block. simpl.
  intros (_ & _ & _ & HX). destruct sm.
  - destruct HX as (d & sh & Xc & Xbt & Z & _ & _ & _ & _ & _ & _ & ->).
    unfold appended_block. now rewrite Hsp.
  - destruct HX as (rs & _ & ->). reflexivity.
Qed.

(** C9. The resampled matrix is stored as the input is: dense for a dense
    input, and for a sparse input in the same format (csr or csc) and with the
    same dtype (a sparse matrix has a numeric dtype). In smoothed mode every
    block generated for a sparse X is a csr matrix of the dtype of X, whose
    entries have been converted to that dtype, before the blocks are stacked. *)
Theorem representation_preserved sm shrinkage strategy X0 (y : list label)
    (s : state) X_res y_res s' :
  _fit_resample sm shrinkage strategy X0 y s = (inr (X_res, y_res), s') ->
  (issparse X0 = true -> dtype_ X0 <> object_) ->
  format X_res = format X0 /\
  issparse X_res = issparse X0 /\
  shape1 X_res = shape1 X0 /\
  (issparse X0 = true -> dtype_ X_res = dtype_ X0) /\
  (forall X c n pool idx (s1 : state) B s2,
     issparse X = true ->
     smoothed_block X c n pool idx s1 = (inr B, s2) ->
     format B = csr /\ dtype_ B = dtype_ X /\
     Forall (Forall (fun cell => exists v, cell = Num (astype (dtype_ X) v)))
            (rows B)).
Proof.
  intros H Hnum.
  apply fit_resample_inv in H
    as (X & s1 & res & HX & Hres & -> & -> & _).
  apply resolve_shrinkage_inv in HX as (_ & Hf & Hfmt & _ & _ & Hcase).
  assert (Hdt : issparse X0 = true -> dtype_ X = dtype_ X0).
  { intros Hsp. destruct sm.
    - destruct Hcase as (Hchk & _).
      apply check_array_inv in Hchk as (_ & _ & _ & _ & ->).
      specialize (Hnum Hsp). now destruct (dtype_ X0).
    - now destruct Hcase as (-> & _). }
  split; [exact Hfmt|]. split; [now apply issparse_format|].
  split; [exact Hf|]. split.
  - intros Hsp. cbn [vstack dtype_]. rewrite <- (Hdt Hsp).
    apply fold_promote_same. apply Forall_forall. intros b Hb.
    apply in_map_iff in Hb as (r & <- & Hr).
    destruct (Forall2_In_r _ Hres Hr) as (item & Hitem).
    eapply class_result_sparse_dtype; [|exact Hitem].
    rewrite (issparse_format _ _ Hfmt). exact Hsp.
  - intros X' c n pool idx s2 B s3 Hsp HB.
    apply smoothed_block_inv in HB
      as (d & sh & Xc & Xb & Z & _ & _ & _ & _ & _ & _ & ->).
    unfold appended_block. rewrite Hsp. simpl.
    repeat split.
    apply Forall_forall. intros row Hrow.
    apply in_map_iff in Hrow as (p & <- & _).
    apply Forall_forall. intros cell Hcell.
    apply in_map_iff in Hcell as (v & <- & _). eauto.
Qed.


End Properties.

(** ** Further properties of the method *)

Section MoreProperties.

Context {label : Type} {label_eq : EqDec label} {RS : RandomState}.

Local Abbreviation state := (@state label RS).
Local Abbreviation M := (@M label RS).
Local Abbreviation exn := (@exn label).

(** *** Class counts *)

Lemma count_occ_generated sm X (y : list label) shr strategy res C :
  Forall2 (class_result sm X y shr) strategy res ->
  NoDup (keys strategy) ->
  count_occ eq_dec (concat (map res_labels res)) C = requested strategy C.
Proof.
  unfold requested.
  induction 1 as [|[c n] r l rs H Hrest IH]; simpl; intros Hnd; [reflexivity|].
  inversion Hnd as [|? ? Hnotin Hnd']; subst.
  rewrite count_occ_app.
  apply class_result_labels in H. rewrite H, count_occ_repeat.
  destruct (eq_dec c C) as [->|Hne].
  - rewrite (count_occ_other_classes C Hrest Hnotin). lia.
  - simpl. now apply IH.
Qed.

(** X1. After a successful call the number of rows of each class C is the
    number it had in y plus the count the target mapping gives for C; a class
    the mapping does not mention keeps its number of rows. *)
Theorem class_counts_after_resampling sm shrinkage strategy X0 (y : list label)
    (s : state) X_res y_res s' :
  _fit_resample sm shrinkage strategy X0 y s = (inr (X_res, y_res), s') ->
  NoDup (keys strategy) ->
  forall C,
    count_occ eq_dec y_res C = count_occ eq_dec y C + requested strategy C.
Proof.
  intros H Hnd C.
  apply fit_resample_inv in H as (X & s1 & res & _ & Hres & _ & -> & _).
  rewrite count_occ_app. f_equal.
  eapply count_occ_generated; eauto.
Qed.

(** *** Provenance and shape *)

Lemma Forall2_identity_indexing {A} (a pre : list A) :
  Forall2 (fun i x => nth_error (pre ++ a) i = Some x)
          (seq (length pre) (length a)) a.
Proof.
  revert pre. induction a as [|x a IH]; intros pre; simpl; constructor.
  - rewrite nth_error_app2 by lia. now rewrite Nat.sub_diag.
  - specialize (IH (pre ++ [x])).
    rewrite <- app_assoc, length_app, Nat.add_1_r in IH. exact IH.
Qed.

Lemma safe_indexing_identity {A} (a : list A) :
  safe_indexing a (seq 0 (length a)) = Some a.
Proof. apply safe_indexing_Forall2. apply (Forall2_identity_indexing a []). Qed.

Lemma safe_indexing_app {A} (a : list A) i1 i2 r1 r2 :
  safe_indexing a i1 = Some r1 -> safe_indexing a i2 = Some r2 ->
  safe_indexing a (i1 ++ i2) = Some (r1 ++ r2).
Proof.
  rewrite !safe_indexing_Forall2. apply Forall2_app.
Qed.

Lemma safe_indexing_bound {A} (a : list A) idx r :
  safe_indexing a idx = Some r -> Forall (fun i => i < length a) idx.
Proof.
  intros H. apply safe_indexing_Forall2 in H.
  induction H as [|i x idx r Hi _ IH]; constructor; auto.
  apply nth_error_Some. congruence.
Qed.

(** X2. [sample_indices_] tells where every output row comes from: all its
    entries are row indices of the input, the resampled labels are
    y[sample_indices_] in both modes, and without smoothing the resampled
    matrix is X[sample_indices_]. *)
Theorem sample_indices_index_the_input sm shrinkage strategy X0 (y : list label)
    (s : state) X_res y_res s' :
  _fit_resample sm shrinkage strategy X0 y s = (inr (X_res, y_res), s') ->
  length y = shape0 X0 ->
  exists sample_indices,
    sample_indices_ s' = Some sample_indices /\
    Forall (fun i => i < shape0 X0) sample_indices /\
    safe_indexing y sample_indices = Some y_res /\
    (sm = false -> safe_indexing (rows X0) sample_indices = Some (rows X_res)).
Proof.
  intros H Hy.
  apply fit_resample_inv in H
    as (X & s1 & res & HX & Hres & -> & -> & Hsi & _).
  apply resolve_shrinkage_inv in HX as (Hrows & _ & _ & _ & _ & Hcase).
  assert (HN : shape0 X = shape0 X0) by (unfold shape0; congruence).
  rewrite HN in Hsi. eexists. split; [exact Hsi|].
  assert (Hlab : safe_indexing y (seq 0 (shape0 X0) ++ concat (map res_indices res))
                 = Some (y ++ concat (map res_labels res))).
  { apply safe_indexing_app.
    - rewrite <- Hy. apply safe_indexing_identity.
    - apply safe_indexing_Forall2. eapply class_result_sources; eauto. }
  split; [|split; [exact Hlab|]].
  - pose proof (safe_indexing_bound _ _ Hlab) as Hb.
    now rewrite Hy in Hb.
  - intros ->. destruct Hcase as (-> & _).
    rewrite rows_vstack. apply safe_indexing_app.
    + apply safe_indexing_identity.
    + apply safe_indexing_Forall2. now apply class_result_plain_rows in Hres.
Qed.

Lemma class_result_well_shaped sm X (y : list label) shr strategy res :
  well_shaped X ->
  Forall2 (class_result sm X y shr) strategy res ->
  Forall (fun r => length r = shape1 X)
         (concat (map (fun r => rows (res_block r)) res)).
Proof.
  intros Hws H. apply Forall_concat. apply Forall_map.
  induction H as [|[c n] [[idx Xb] yb] l rs H _ IH]; constructor; auto.
  unfold res_block. simpl. destruct H as (Hlen & _ & _ & HX). destruct sm.
  - destruct HX as (d & sh & Xc & Xbt & Z & _ & _ & _ & Hb & HZ & _ & ->).
    apply drawn_randn_shape in HZ as (HZlen & HZrows). simpl in HZlen, Hlen.
    pose proof (safe_indexing_length _ _ Hb) as Hblen.
    apply (safe_indexing_rows_shape _ Hws) in Hb.
    destruct (perturbed_shape sh X Xc HZrows Hb) as (_ & HP); [simpl in *; lia|].
    unfold appended_block. destruct (issparse X); simpl;
      apply Forall_map; eapply Forall_impl; [|exact HP| |exact HP];
      intros p Hp; now rewrite length_map.
  - destruct HX as (r & Hr & ->). simpl.
    eapply safe_indexing_rows_shape; eauto.
Qed.

(** X3. The output is a rectangular matrix with the columns of X and
    N + sum of the counts rows, and it has one label per row. *)
Theorem output_shape sm shrinkage strategy X0 (y : list label)
    (s : state) X_res y_res s' :
  _fit_resample sm shrinkage strategy X0 y s = (inr (X_res, y_res), s') ->
  well_shaped X0 ->
  length y = shape0 X0 ->
  well_shaped X_res /\
  shape1 X_res = shape1 X0 /\
  shape0 X_res = shape0 X0 + list_sum (map snd strategy) /\
  length y_res = shape0 X_res.
Proof.
  intros H Hws Hy.
  apply fit_resample_inv in H
    as (X & s1 & res & HX & Hres & -> & -> & _).
  apply resolve_shrinkage_inv in HX as (Hrows & Hf & _).
  assert (Hws' : well_shaped X) by (unfold well_shaped; now rewrite Hrows, Hf).
  pose proof (class_result_sizes Hres) as (_ & L2 & L3).
  assert (Hn : shape0 (vstack (format X) (shape1 X) (X :: map res_block res))
               = shape0 X0 + list_sum (map snd strategy)).
  { unfold shape0. rewrite rows_vstack, length_app, L3. now rewrite Hrows. }
  split; [|split; [exact Hf|split; [exact Hn|]]].
  - unfold well_shaped. rewrite rows_vstack. cbn [shape1 vstack].
    apply Forall_app. split; [exact Hws'|].
    eapply class_result_well_shaped; eauto.
  - rewrite Hn, length_app, L2. now rewrite Hy.
Qed.

(** *** What the output holds *)












(** *** The order of the calls *)

Lemma logs_ret {A} (a : A) : logs [] (ret a : M A).
Proof. intros s a' s' H. inversion H. now rewrite app_nil_r. Qed.

Lemma logs_raise {A} (e : exn) l : logs l (raise e : M A).
Proof. intros s a s' H. discriminate. Qed.

Lemma logs_bind {A B} l1 l2 (c : M A) (k : A -> M B) :
  logs l1 c -> (forall a, logs l2 (k a)) -> logs (l1 ++ l2) (bind c k).
Proof.
  intros Hc Hk s b s' H. apply bind_inr in H as (a & s1 & H1 & H2).
  rewrite (Hk a _ _ _ H2), (Hc _ _ _ H1). now rewrite app_assoc.
Qed.

Lemma logs_liftO {A} (e : exn) (o : option A) : logs [] (liftO e o : M A).
Proof. destruct o; [apply logs_ret|apply logs_raise]. Qed.

Lemma logs_record c : logs [c] (record c : M unit).
Proof. intros s a s' H. inversion H. reflexivity. Qed.

Lemma logs_draw {A} (f : rng -> A * rng) : logs [] (draw f : M A).
Proof.
  intros s a s'. unfold draw. destruct (f (random_state s)).
  intros H. inversion H. simpl. now rewrite app_nil_r.
Qed.

Lemma logs_replicateM {A} n (c : M A) : logs [] c -> logs [] (replicateM n c).
Proof.
  intros Hc. induction n; simpl; [apply logs_ret|].
  apply (logs_bind (l1 := []) (l2 := [])); [exact Hc|]. intros a.
  apply (logs_bind (l1 := []) (l2 := [])); [exact IHn|]. intros r.
  apply logs_ret.
Qed.

Lemma logs_choice a size : logs [call_choice size] (choice a size : M _).
Proof.
  unfold choice.
  apply (logs_bind (l1 := [call_choice size]) (l2 := [])); [apply logs_record|].
  intros _. destruct (_ && _); [apply logs_raise|].
  apply (logs_bind (l1 := []) (l2 := []));
    [apply logs_replicateM, logs_draw|].
  intros idx. destruct (safe_indexing a idx); [apply logs_ret|apply logs_raise].
Qed.

Lemma logs_randn d0 d1 : logs [call_randn d0 d1] (randn d0 d1 : M _).
Proof.
  unfold randn.
  apply (logs_bind (l1 := [call_randn d0 d1]) (l2 := [])); [apply logs_record|].
  intros _. apply logs_replicateM, logs_replicateM, logs_draw.
Qed.

Lemma logs_smoothed_block X (c : label) n pool idx :
  logs [call_randn n (shape1 X)] (smoothed_block X c n pool idx : M _).
Proof.
  unfold smoothed_block.
  apply (logs_bind (l1 := []) (l2 := [call_randn n (shape1 X)])).
  { destruct (_ =? _); [apply logs_raise|apply logs_ret]. }
  intros _.
  apply (logs_bind (l1 := []) (l2 := [call_randn n (shape1 X)]));
    [apply logs_liftO|]. intros Xc.
  apply (logs_bind (l1 := []) (l2 := [call_randn n (shape1 X)])).
  { intros s a s' H. inversion H. now rewrite app_nil_r. }
  intros sh.
  apply (logs_bind (l1 := []) (l2 := [call_randn n (shape1 X)]));
    [apply logs_liftO|]. intros v.
  apply (logs_bind (l1 := [call_randn n (shape1 X)]) (l2 := []));
    [apply logs_randn|]. intros Z.
  apply (logs_bind (l1 := []) (l2 := [])); [apply logs_liftO|]. intros Xb.
  apply logs_ret.
Qed.

Lemma logs_resample_class (sm : bool) X (y : list label) acc c n :
  logs (call_choice n :: (if sm then [call_randn n (shape1 X)] else @nil call))
       (resample_class sm X y acc (c, n)).
Proof.
  destruct acc as [[Xs ys] si]. unfold resample_class.
  apply (logs_bind (l1 := [call_choice n])
                   (l2 := if sm then [call_randn n (shape1 X)] else @nil call));
    [apply logs_choice|]. intros idx.
  rewrite <- (app_nil_r (if sm then _ else _)).
  apply logs_bind.
  - destruct sm; [apply logs_smoothed_block|].
    apply (logs_bind (l1 := []) (l2 := [])); [apply logs_liftO|].
    intros r. apply logs_ret.
  - intros Xn. apply (logs_bind (l1 := []) (l2 := [])); [apply logs_liftO|].
    intros yn. apply logs_ret.
Qed.

Lemma logs_foldM_resample (sm : bool) X (y : list label) l :
  forall acc,
    logs (flat_map (fun item =>
                      call_choice (snd item) ::
                      (if sm then [call_randn (snd item) (shape1 X)]
                       else @nil call))
                   l)
         (foldM (resample_class sm X y) acc l).
Proof.
  induction l as [|[c n] l IH]; intros acc; cbn [foldM flat_map].
  - apply logs_ret.
  - apply logs_bind; [apply logs_resample_class|]. exact IH.
Qed.

(** X6. A call that returns has called the external routines in this order:
    [check_array] once if smoothing is enabled, then for each entry of the
    target mapping, in its order, [choice] with the count of the entry,
    followed when smoothing by [randn] with that count and the number of
    features. Without smoothing neither [check_array] nor [randn] is
    called. *)
Theorem calls_in_order sm shrinkage strategy X0 (y : list label)
    (s : state) X_res y_res s' :
  _fit_resample sm shrinkage strategy X0 y s = (inr (X_res, y_res), s') ->
  calls s' = calls s ++ expected_calls sm (shape1 X0) strategy.
Proof.
  unfold _fit_resample. intros H.
  apply bind_inr in H as (X & s1 & HX & H).
  apply bind_inr in H as ([[Xs ys] si] & s2 & Hloop & H).
  apply bind_inr in H as ([] & s3 & Hset & H).
  inversion Hset; subst s3. inversion H; subst s'. cbn [calls].
  apply logs_foldM_resample in Hloop. rewrite Hloop.
  apply resolve_shrinkage_inv in HX as (_ & Hf & _ & _ & _ & Hcase).
  unfold expected_calls. rewrite Hf. destruct sm.
  - destruct Hcase as (_ & -> & _). now rewrite <- app_assoc.
  - destruct Hcase as (_ & -> & _). reflexivity.
Qed.

(** *** When the call returns, and how it can fail *)




Lemma resample_class_outcome sm X (y : list label) acc c n (s : state) r s' :
  length y = shape0 X ->
  (sm = true ->
   (shape1 X + 2) * shape0 X <> 0 /\
   exists d v, shrinkage_ s = Some (Some d) /\ getitem d c = Some v) ->
  resample_class sm X y acc (c, n) s = (r, s') ->
  (exists a, r = inr a) \/ r = inl ValueError_choice.
Proof.
  intros Hy Hsm H.
  destruct (Nat.eq_dec n 0) as [Hn|Hn].
  - destruct (@resample_class_total _ _ _ sm X y acc c n s Hy (or_introl Hn) Hsm)
      as (a & s2 & Ha).
    left. exists a. congruence.
  - destruct (in_dec eq_dec c y) as [Hc|Hc].
    + destruct (@resample_class_total _ _ _ sm X y acc c n s Hy (or_intror Hc) Hsm)
        as (a & s2 & Ha).
      left. exists a. congruence.
    + rewrite (@resample_class_empty_pool _ _ _ sm X y acc c n s Hc Hn) in H.
      right. congruence.
Qed.

Lemma foldM_resample_outcome sm X (y : list label) l :
  length y = shape0 X ->
  forall acc (s : state) r s',
    (sm = true ->
     (shape1 X + 2) * shape0 X <> 0 /\
     exists d, shrinkage_ s = Some (Some d) /\
               forall c, In c (keys l) -> exists v, getitem d c = Some v) ->
    foldM (resample_class sm X y) acc l s = (r, s') ->
    (exists a, r = inr a) \/ r = inl ValueError_choice.
Proof.
  intros Hy. induction l as [|[c n] l IH]; intros acc s r s' Hsm; cbn [foldM].
  - intros H. inversion H. eauto.
  - unfold bind.
    destruct (resample_class sm X y acc (c, n) s) as [[e|a1] s1] eqn:H1.
    + intros H. inversion H; subst.
      eapply resample_class_outcome in H1; eauto.
      intros Htrue. destruct (Hsm Htrue) as (Hn & d & Hd & Hk).
      split; [exact Hn|]. destruct (Hk c) as (v & Hv); [now left|]. eauto.
    + pose proof H1 as Hf. apply preserves_resample_class in Hf as (Hshr & _).
      apply IH. intros Htrue. destruct (Hsm Htrue) as (Hn & d & Hd & Hk).
      split; [exact Hn|]. exists d. split; [congruence|].
      intros c' Hc'. apply Hk. now right.
Qed.

(** X8. For an input with one label per row (and at least one row when
    smoothing), the only exceptions the method can end with are the three
    ValueErrors: the one of [choice] for a class absent from y, and, with
    smoothing only, the one for non-numerical data and the one for an
    incomplete shrinkage dict. No ZeroDivisionError, KeyError or IndexError
    escapes. *)
Theorem only_value_errors sm shrinkage strategy X0 (y : list label)
    (s : state) e s' :
  length y = shape0 X0 ->
  (sm = true -> 0 < shape0 X0) ->
  _fit_resample sm shrinkage strategy X0 y s = (inl e, s') ->
  e = ValueError_choice \/
  (sm = true /\
   (e = ValueError_numerical \/ exists missing, e = ValueError_shrinkage missing)).
Proof.
  intros Hy Hpos. unfold _fit_resample, bind at 1.
  destruct (resolve_shrinkage sm shrinkage strategy X0 s) as [[e0|X] s1] eqn:HX.
  - intros H. inversion H; subst. right. destruct sm.
    + split; [reflexivity|].
      destruct (resolves_to_dec shrinkage strategy) as [[d Hd]|(d & -> & Hm)].
      * erewrite resolve_shrinkage_resolved in HX by exact Hd.
        destruct (check_array X0); inversion HX. now left.
      * rewrite resolve_shrinkage_missing in HX by exact Hm.
        inversion HX. right. eauto.
    + rewrite resolve_shrinkage_false in HX. discriminate.
  - pose proof HX as Hinv.
    apply resolve_shrinkage_inv in Hinv as (Hrows & _ & _ & _ & _ & Hcase).
    assert (HN : shape0 X = shape0 X0) by (unfold shape0; congruence).
    unfold bind at 1.
    destruct (foldM (resample_class sm X y) ([X], [y], seq 0 (shape0 X)) strategy s1)
      as [[e1|[[Xs ys] si]] s2] eqn:Hloop.
    + intros H. inversion H; subst. left.
      eapply foldM_resample_outcome in Hloop; try congruence.
      * destruct Hloop as [(a & Ha)|Ha]; congruence.
      * intros ->. destruct Hcase as (_ & _ & d & Hd & Hres).
        split; [specialize (Hpos eq_refl); rewrite HN; nia|].
        exists d. split; [exact Hd|]. intros c Hc.
        eapply resolves_to_getitem; eauto.
    + unfold bind, set_sample_indices_, ret. discriminate.
Qed.

(** *** A feature that does not vary within a class *)






(** *** Nothing to generate *)












(** *** A shrinkage factor per class *)


(** *** Extending the target mapping *)

Lemma respects_ret {A} K (a : A) : respects K (ret a : M A).
Proof. intros s t H. simpl. auto. Qed.

Lemma respects_raise {A} K (e : exn) : respects K (raise e : M A).
Proof. intros s t H. simpl. auto. Qed.

Lemma respects_liftO {A} K (e : exn) (o : option A) : respects K (liftO e o : M A).
Proof. destruct o; [apply respects_ret|apply respects_raise]. Qed.

Lemma respects_bind {A B} K (c : M A) (k : A -> M B) :
  respects K c -> (forall a, respects K (k a)) -> respects K (bind c k).
Proof.
  intros Hc Hk s t Hst. unfold bind.
  destruct (Hc s t Hst) as (Hfst & Halike).
  destruct (c s) as [[e|a] s1], (c t) as [[e'|a'] t1]; simpl in *;
    try discriminate.
  - split; [congruence|exact Halike].
  - injection Hfst as <-. now apply Hk.
Qed.

Lemma respects_record K c : respects K (record c : M unit).
Proof. intros s t H. simpl. split; [reflexivity|exact H]. Qed.

Lemma respects_draw {A} K (f : rng -> A * rng) : respects K (draw f : M A).
Proof.
  intros s t (Hg & Hk). unfold draw. rewrite Hg.
  destruct (f (random_state t)) as [a g]. simpl. repeat split; auto.
Qed.

Lemma respects_replicateM {A} K n (c : M A) :
  respects K c -> respects K (replicateM n c).
Proof.
  intros Hc. induction n; simpl; [apply respects_ret|].
  apply respects_bind; [exact Hc|]. intros a.
  apply respects_bind; [exact IHn|]. intros r. apply respects_ret.
Qed.

Lemma respects_choice K a size : respects K (choice a size : M _).
Proof.
  unfold choice. apply respects_bind; [apply respects_record|]. intros _.
  destruct (_ && _); [apply respects_raise|].
  apply respects_bind; [apply respects_replicateM, respects_draw|].
  intros idx. destruct (safe_indexing a idx);
    [apply respects_ret|apply respects_raise].
Qed.

Lemma respects_randn K d0 d1 : respects K (randn d0 d1 : M _).
Proof.
  unfold randn. apply respects_bind; [apply respects_record|]. intros _.
  apply respects_replicateM, respects_replicateM, respects_draw.
Qed.

Lemma respects_getitem {A} K c (k : R -> M A) :
  In c K -> (forall v, respects K (k v)) ->
  respects K (bind get_shrinkage_
                (fun sh => bind (liftO (KeyError c)
                                   (match sh with
                                    | Some (Some d) => getitem d c
                                    | _ => None
                                    end)) k)).
Proof.
  intros Hc Hk s t Hst. pose proof (proj2 Hst c Hc) as Hl.
  unfold shrinkage_of in Hl.
  unfold bind, get_shrinkage_, liftO, ret, raise. simpl. rewrite Hl.
  destruct (match shrinkage_ t with Some (Some d) => getitem d c | _ => None end)
    as [v|]; simpl.
  - now apply Hk.
  - auto.
Qed.

Lemma respects_resample_class K sm X (y : list label) acc c n :
  In c K -> respects K (resample_class sm X y acc (c, n)).
Proof.
  intros Hc. destruct acc as [[Xs ys] si]. unfold resample_class.
  apply respects_bind; [apply respects_choice|]. intros idx.
  apply respects_bind.
  - destruct sm.
    + unfold smoothed_block.
      apply respects_bind;
        [destruct (_ =? _); [apply respects_raise|apply respects_ret]|].
      intros _. apply respects_bind; [apply respects_liftO|]. intros Xc.
      apply respects_getitem; [exact Hc|]. intros v.
      apply respects_bind; [apply respects_randn|]. intros Z.
      apply respects_bind; [apply respects_liftO|]. intros Xb.
      apply respects_ret.
    + apply respects_bind; [apply respects_liftO|]. intros r.
      apply respects_ret.
  - intros Xn. apply respects_bind; [apply respects_liftO|]. intros yn.
    apply respects_ret.
Qed.

Lemma respects_foldM_resample K sm X (y : list label) l :
  (forall c, In c (keys l) -> In c K) ->
  forall acc, respects K (foldM (resample_class sm X y) acc l).
Proof.
  induction l as [|[c n] l IH]; intros HK acc; cbn [foldM].
  - apply respects_ret.
  - apply respects_bind.
    + apply respects_resample_class. apply HK. now left.
    + intros a. apply IH. intros c' Hc'. apply HK. now right.
Qed.



(** *** A scalar and the dict that repeats it *)

Lemma complete_dict_resolves d (strategy : list (label * nat)) :
  (forall c, In c (keys strategy) -> getitem d c <> None) ->
  resolves_to (Dict d) strategy d.
Proof.
  intros H. split; [reflexivity|].
  destruct (filter (fun k => negb (contains d k)) (keys strategy)) as [|c l] eqn:Hf;
    [reflexivity|exfalso].
  assert (Hc : In c (filter (fun k => negb (contains d k)) (keys strategy)))
    by (rewrite Hf; now left).
  apply filter_In in Hc as (Hc & Hn). apply contains_false in Hn.
  now apply (H c).
Qed.

Lemma bind_fail {A B} (c : M A) (k : A -> M B) s e s1 :
  c s = (inl e, s1) -> bind c k s = (inl e, s1).
Proof. unfold bind. now intros ->. Qed.

(** What the method does once lines 151-178 have succeeded, in two alike
    states. *)
Lemma fit_resample_alike smA shA smB shB sm strategy X0 (y : list label)
    (s t : state) X sA tA :
  smA = sm -> smB = sm ->
  resolve_shrinkage smA shA strategy X0 s = (inr X, sA) ->
  resolve_shrinkage smB shB strategy X0 t = (inr X, tA) ->
  alike (keys strategy) sA tA ->
  sample_indices_ s = sample_indices_ t ->
  let outA := _fit_resample smA shA strategy X0 y s in
  let outB := _fit_resample smB shB strategy X0 y t in
  fst outA = fst outB /\
  random_state (snd outA) = random_state (snd outB) /\
  sample_indices_ (snd outA) = sample_indices_ (snd outB).
Proof.
  intros -> -> HA HB Halike Hsi outA outB. subst outA outB.
  unfold _fit_resample. rewrite (bind_run _ _ _ HA), (bind_run _ _ _ HB).
  apply resolve_shrinkage_keeps in HA as (HsiA & _).
  apply resolve_shrinkage_keeps in HB as (HsiB & _).
  destruct (@respects_foldM_resample (keys strategy) sm X y strategy
              (fun c Hc => Hc) ([X], [y], seq 0 (shape0 X)) sA tA Halike)
    as (Hfst & Hafter).
  destruct (foldM (resample_class sm X y) ([X], [y], seq 0 (shape0 X)) strategy sA)
    as [rA sA'] eqn:HloopA.
  destruct (foldM (resample_class sm X y) ([X], [y], seq 0 (shape0 X)) strategy tA)
    as [rB tA'] eqn:HloopB.
  simpl in Hfst, Hafter. subst rB.
  pose proof HloopA as HfA. pose proof HloopB as HfB.
  apply preserves_foldM in HfA as (_ & HfA & _);
    [|intros; apply preserves_resample_class].
  apply preserves_foldM in HfB as (_ & HfB & _);
    [|intros; apply preserves_resample_class].
  destruct rA as [e|[[Xs ys] si]].
  - rewrite (bind_fail _ _ _ HloopA), (bind_fail _ _ _ HloopB). simpl.
    repeat split; [apply Hafter|congruence].
  - rewrite (bind_run _ _ _ HloopA), (bind_run _ _ _ HloopB).
    unfold bind, set_sample_indices_, ret. simpl.
    repeat split. apply Hafter.
Qed.

(** X13. With smoothing enabled, a real shrinkage v and a dict that gives v to
    every class of the target mapping are interchangeable: from the same
    state the two calls end with the same result or the same exception, the
    same [sample_indices_] and the same generator state. *)
Theorem scalar_is_constant_dict v d strategy X0 (y : list label) (s : state) :
  (forall c, In c (keys strategy) -> getitem d c = Some v) ->
  let out_scalar := _fit_resample true (Real v) strategy X0 y s in
  let out_dict := _fit_resample true (Dict d) strategy X0 y s in
  fst out_scalar = fst out_dict /\
  random_state (snd out_scalar) = random_state (snd out_dict) /\
  sample_indices_ (snd out_scalar) = sample_indices_ (snd out_dict).
Proof.
  intros Hd out_scalar out_dict. subst out_scalar out_dict.
  assert (HD : resolves_to (Dict d) strategy d).
  { apply complete_dict_resolves. intros c Hc. rewrite (Hd c Hc). discriminate. }
  pose proof (@resolve_shrinkage_resolved _ _ _ (Real v) strategy X0 s _ eq_refl)
    as HA.
  pose proof (@resolve_shrinkage_resolved _ _ _ (Dict d) strategy X0 s d HD)
    as HB.
  destruct (check_array X0) as [X|] eqn:Hchk.
  - eapply fit_resample_alike; eauto.
    split; [reflexivity|]. intros c Hc. unfold shrinkage_of. simpl.
    rewrite getitem_broadcast by exact Hc. now rewrite Hd.
  - rewrite (fit_resample_raise_early _ _ _ _ y _ HA).
    rewrite (fit_resample_raise_early _ _ _ _ y _ HB). simpl. auto.
Qed.

(** *** What the shrinkage does not change *)

Lemma alike_nil (s t : state) : random_state s = random_state t -> alike [] s t.
Proof. intros H. split; [exact H|]. intros c []. Qed.

Lemma smoothed_block_same_generator X (c : label) n pool idx (s t : state)
    BA sA BB tB :
  random_state s = random_state t ->
  smoothed_block X c n pool idx s = (inr BA, sA) ->
  smoothed_block X c n pool idx t = (inr BB, tB) ->
  random_state sA = random_state tB.
Proof.
  intros Hg HA HB. unfold smoothed_block in HA, HB.
  apply bind_inr in HA as ([] & s1 & Hz & HA).
  apply bind_inr in HB as ([] & t1 & Hz' & HB).
  destruct (_ =? _); [discriminate|].
  inversion Hz; subst s1. inversion Hz'; subst t1.
  apply bind_inr in HA as (Xc & s1 & Hc & HA). apply liftO_inr in Hc as [_ ->].
  apply bind_inr in HB as (Xc' & t1 & Hc' & HB). apply liftO_inr in Hc' as [_ ->].
  apply bind_inr in HA as (sh & s1 & Hsh & HA). inversion Hsh; subst s1.
  apply bind_inr in HB as (sh' & t1 & Hsh' & HB). inversion Hsh'; subst t1.
  apply bind_inr in HA as (v & s1 & Hv & HA). apply liftO_inr in Hv as [_ ->].
  apply bind_inr in HB as (v' & t1 & Hv' & HB). apply liftO_inr in Hv' as [_ ->].
  apply bind_inr in HA as (Z & s1 & HZ & HA).
  apply bind_inr in HB as (Z' & t1 & HZ' & HB).
  destruct (@respects_randn (@nil label) n (shape1 X) s t (alike_nil _ _ Hg))
    as (_ & Hafter).
  rewrite HZ, HZ' in Hafter. simpl in Hafter.
  apply bind_inr in HA as (Xb & s2 & Hb & HA). apply liftO_inr in Hb as [_ ->].
  apply bind_inr in HB as (Xb' & t2 & Hb' & HB). apply liftO_inr in Hb' as [_ ->].
  inversion HA; inversion HB; subst. apply Hafter.
Qed.

Lemma resample_class_same_draws sm X (y : list label) XsA XsB ys si c n
    (s t : state) XsA' ysA siA sA XsB' ysB siB tB :
  random_state s = random_state t ->
  resample_class sm X y (XsA, ys, si) (c, n) s = (inr (XsA', ysA, siA), sA) ->
  resample_class sm X y (XsB, ys, si) (c, n) t = (inr (XsB', ysB, siB), tB) ->
  ysA = ysB /\ siA = siB /\ random_state sA = random_state tB.
Proof.
  intros Hg HA HB. unfold resample_class in HA, HB.
  apply bind_inr in HA as (idx & s1 & Hch & HA).
  apply bind_inr in HB as (idx' & t1 & Hch' & HB).
  destruct (@respects_choice (@nil label) (flatnonzero (label_mask y c)) n s t
              (alike_nil _ _ Hg)) as (Hfst & Hafter).
  rewrite Hch, Hch' in Hfst, Hafter. simpl in Hfst, Hafter.
  injection Hfst as <-. destruct Hafter as (Hg1 & _).
  apply bind_inr in HA as (XnA & s2 & HXA & HA).
  apply bind_inr in HB as (XnB & t2 & HXB & HB).
  assert (Hg2 : random_state s2 = random_state t2).
  { destruct sm.
    - eapply smoothed_block_same_generator; eauto.
    - apply bind_inr in HXA as (r & s3 & Hr & HXA). apply liftO_inr in Hr as [_ ->].
      apply bind_inr in HXB as (r' & t3 & Hr' & HXB). apply liftO_inr in Hr' as [_ ->].
      inversion HXA; inversion HXB; subst. exact Hg1. }
  apply bind_inr in HA as (yn & s3 & Hy & HA). apply liftO_inr in Hy as [Hy ->].
  apply bind_inr in HB as (yn' & t3 & Hy' & HB). apply liftO_inr in Hy' as [Hy' ->].
  inversion HA; inversion HB; subst.
  assert (yn = yn') by congruence. subst. auto.
Qed.

Lemma foldM_same_draws sm X (y : list label) l :
  forall XsA XsB ys si (s t : state) XsA' ysA siA sA XsB' ysB siB tB,
    random_state s = random_state t ->
    foldM (resample_class sm X y) (XsA, ys, si) l s = (inr (XsA', ysA, siA), sA) ->
    foldM (resample_class sm X y) (XsB, ys, si) l t = (inr (XsB', ysB, siB), tB) ->
    ysA = ysB /\ siA = siB /\ random_state sA = random_state tB.
Proof.
  induction l as [|[c n] l IH]; cbn [foldM];
    intros XsA XsB ys si s t XsA' ysA siA sA XsB' ysB siB tB Hg HA HB.
  - inversion HA; inversion HB; subst. auto.
  - apply bind_inr in HA as ([[XsA1 ysA1] siA1] & s1 & HA1 & HA).
    apply bind_inr in HB as ([[XsB1 ysB1] siB1] & t1 & HB1 & HB).
    destruct (@resample_class_same_draws sm X y _ _ _ _ c n s t
                _ _ _ _ _ _ _ _ Hg HA1 HB1) as (-> & -> & Hg1).
    eapply IH; eauto.
Qed.

(** X14. The shrinkage has no part in what is drawn: two calls in the same
    mode that both return, started with the same generator state and any two
    shrinkage parameters, return the same labels and leave the same
    [sample_indices_] and the same generator state. *)
Theorem draws_do_not_depend_on_shrinkage sm shrinkageA shrinkageB strategy X0
    (y : list label) (s t : state) XA yA sA XB yB tB :
  random_state s = random_state t ->
  _fit_resample sm shrinkageA strategy X0 y s = (inr (XA, yA), sA) ->
  _fit_resample sm shrinkageB strategy X0 y t = (inr (XB, yB), tB) ->
  yA = yB /\
  sample_indices_ sA = sample_indices_ tB /\
  random_state sA = random_state tB.
Proof.
  intros Hg HA HB. unfold _fit_resample in HA, HB.
  apply bind_inr in HA as (X & s1 & HXA & HA).
  apply bind_inr in HB as (X' & t1 & HXB & HB).
  apply resolve_shrinkage_inv in HXA as (_ & _ & _ & HgA & _ & HcaseA).
  apply resolve_shrinkage_inv in HXB as (_ & _ & _ & HgB & _ & HcaseB).
  assert (X' = X).
  { destruct sm.
    - destruct HcaseA as (HcA & _), HcaseB as (HcB & _). congruence.
    - destruct HcaseA as (-> & _), HcaseB as (-> & _). reflexivity. }
  subst X'.
  apply bind_inr in HA as ([[XsA ysA] siA] & s2 & HloopA & HA).
  apply bind_inr in HB as ([[XsB ysB] siB] & t2 & HloopB & HB).
  assert (Hg1 : random_state s1 = random_state t1) by congruence.
  destruct (@foldM_same_draws sm X y strategy _ _ _ _ s1 t1
              _ _ _ _ _ _ _ _ Hg1 HloopA HloopB) as (-> & -> & Hg2).
  apply bind_inr in HA as ([] & s3 & HsetA & HA).
  apply bind_inr in HB as ([] & t3 & HsetB & HB).
  inversion HsetA; subst s3. inversion HsetB; subst t3.
  inversion HA; inversion HB; subst. simpl. auto.
Qed.

(** *** The attributes after the call, the noise and the bandwidth *)

(** X15. [sample_indices_] is assigned exactly when the call returns: a call
    that ends with an exception, whichever it is, leaves the attribute as it
    was. Without smoothing [shrinkage_] is None after the call, whatever its
    outcome. *)
Theorem attributes_after_call sm shrinkage strategy X0 (y : list label)
    (s : state) r s' :
  _fit_resample sm shrinkage strategy X0 y s = (r, s') ->
  (forall e, r = inl e -> sample_indices_ s' = sample_indices_ s) /\
  (forall out, r = inr out -> exists si, sample_indices_ s' = Some si) /\
  (sm = false -> shrinkage_ s' = Some None).
Proof.
  intros H.
  destruct (resolve_shrinkage sm shrinkage strategy X0 s) as [[e0|X] s1] eqn:HX.
  - rewrite (fit_resample_raise_early _ _ _ _ y _ HX) in H.
    inversion H; subst.
    pose proof HX as Hk. apply resolve_shrinkage_keeps in Hk as (Hsi & _).
    repeat split; try discriminate; auto.
    intros ->. rewrite resolve_shrinkage_false in HX. discriminate.
  - pose proof HX as Hk. apply resolve_shrinkage_keeps in Hk as (Hsi & _).
    destruct (@fit_resample_frame _ _ _ sm shrinkage strategy X0 y s _ _ _ _ HX H)
      as (Hshr & _ & Hfail).
    split; [|split].
    + intros e ->. rewrite (Hfail e eq_refl). exact Hsi.
    + intros [X_res y_res] ->.
      apply fit_resample_inv in H as (X' & s1' & res & _ & _ & _ & _ & Hs & _).
      eauto.
    + intros ->. rewrite Hshr. rewrite resolve_shrinkage_false in HX.
      inversion HX. reflexivity.
Qed.


(** X17. The smoothing constant of lines 195-197 is positive, and for a given
    number of features it does not increase with the number of rows of X. *)
Theorem smoothing_constant_decreases n n' f :
  0 < n -> n <= n' ->
  (0 < smoothing_constant n' f <= smoothing_constant n f)%R.
Proof.
  intros Hn Hle. unfold smoothing_constant. split.
  - unfold Rpower. apply exp_pos.
  - assert (Hx : (0 < INR ((f + 2) * n))%R) by (apply lt_0_INR; nia).
    assert (Hx' : (INR ((f + 2) * n) <= INR ((f + 2) * n'))%R)
      by (apply le_INR; nia).
    assert (Hf : (0 < INR (f + 4))%R) by (apply lt_0_INR; lia).
    apply Rle_Rpower_l.
    + apply Rlt_le. apply Rdiv_lt_0_compat; lra.
    + split.
      * apply Rdiv_lt_0_compat; lra.
      * unfold Rdiv. apply Rmult_le_compat_l; [lra|].
        apply Rinv_le_contravar; assumption.
Qed.



End MoreProperties.

(** ** Concrete runs *)


Lemma fit_resample_class_rows_demo :
  let out := _fit_resample false (Real 1) [(0, 1); (1, 2)] X_demo y_demo state0 in
  exists X_res y_res sample_indices,
    fst out = inr (X_res, y_res) /\
    sample_indices_ (snd out) = Some sample_indices /\
    count_occ eq_dec (skipn 3 y_res) 1 = 2 /\
    Forall2 (fun i l => nth_error y_demo i = Some l)
            (skipn 3 sample_indices) (skipn 3 y_res) /\
    length (firstn 2 (skipn 4 sample_indices)) = 2 /\
    Forall (fun i => nth_error y_demo i = Some 1)
           (firstn 2 (skipn 4 sample_indices)) /\
    firstn 2 (skipn 4 y_res) = [1; 1].
Proof.
  edestruct (@fit_resample_class_rows nat _ counter_rng false (Real 1)
               [(0, 1)] 1 2 [] X_demo y_demo state0)
    as (si & H); [cbn; reflexivity| |reflexivity|].
  - repeat constructor; simpl; intuition congruence.
  - eexists _, _, si. split; [reflexivity|exact H].
Defined.

Lemma fit_resample_plain_duplicates_demo :
  let out := _fit_resample false (Real 1) [(1, 2)] X_mixed y_demo state0 in
  exists X_res y_res sample_indices,
    fst out = inr (X_res, y_res) /\
    sample_indices_ (snd out) = Some sample_indices /\
    Forall2 (fun i row => nth_error (rows X_mixed) i = Some row)
            (skipn 3 sample_indices) (skipn 3 (rows X_res)) /\
    forall j row l,
      3 <= j ->
      nth_error (rows X_res) j = Some row ->
      nth_error y_res j = Some l ->
      exists i, nth_error sample_indices j = Some i /\
                nth_error (rows X_mixed) i = Some row /\
                nth_error y_demo i = Some l.
Proof.
  edestruct (@fit_resample_plain_duplicates nat _ counter_rng (Real 1)
               [(1, 2)] X_mixed y_demo state0)
    as (si & H); [cbn; reflexivity|reflexivity|].
  eexists _, _, si. split; [reflexivity|exact H].
Defined.



Lemma shrinkage_resolution_demo :
  (exists C, In C (keys [(7, 1)]) /\ getitem (@nil (nat * R)) C = None) /\
  exists missing,
    _fit_resample true (Dict []) [(7, 1)] X_mixed y_demo state0
      = (inl (ValueError_shrinkage missing), state0) /\
    forall C, In C missing <-> In C (keys [(7, 1)]) /\ getitem (@nil (nat * R)) C = None.
Proof.
  assert (H : exists C, In C (keys [(7, 1)]) /\ getitem (@nil (nat * R)) C = None).
  { exists 7. split; [left; reflexivity|reflexivity]. }
  split; [exact H|].
  exact (proj2 (@shrinkage_resolution nat _ counter_rng
                  [(7, 1)] X_mixed y_demo state0) [] H).
Defined.

Lemma numeric_validation_demo :
  let out := _fit_resample true (Real 1) [(7, 1)] X_mixed y_demo state0 in
  non_numeric X_mixed /\
  (exists d, resolves_to (Real 1) [(7, 1)] d) /\
  (exists l, calls (snd out) = calls state0 ++ l /\ count_check_array l = 1) /\
  exists e,
    fst out = inl e /\
    (e = ValueError_numerical \/ exists missing, e = ValueError_shrinkage missing) /\
    random_state (snd out) = random_state state0 /\
    sample_indices_ (snd out) = sample_indices_ state0 /\
    (calls (snd out) = calls state0 \/
     calls (snd out) = calls state0 ++ [call_check_array]).
Proof.
  assert (H : non_numeric X_mixed).
  { exists [Num 3; Str "a"], "a"%string. simpl. auto. }
  assert (Hd : exists d, resolves_to (Real 1) [(7, 1)] d).
  { eexists. simpl. reflexivity. }
  destruct (@numeric_validation nat _ counter_rng (Real 1)
              [(7, 1)] X_mixed y_demo state0)
    as ((l & Hl & _ & Hone & _) & Hexn).
  split; [exact H|]. split; [exact Hd|]. split.
  - exists l. split; [exact Hl|exact (Hone Hd)].
  - exact (Hexn H).
Defined.

(** C7 as stated fails: with an incomplete shrinkage dict the call is rejected
    before [check_array] is reached, so the validation is not performed once. *)
Lemma incomplete_dict_skips_check_array :
  let out := _fit_resample true (Dict []) [(7, 1)] X_mixed y_demo state0 in
  non_numeric X_mixed /\
  fst out = inl (ValueError_shrinkage [7]) /\
  count_check_array (calls (snd out)) <> 1.
Proof.
  split; [|split].
  - exists [Num 3; Str "a"], "a"%string. simpl. auto.
  - reflexivity.
  - cbn. discriminate.
Qed.

Lemma empty_pool_aborts_demo :
  let out := _fit_resample true (Real 1) [(1, 2); (7, 1)] X_demo y_demo state0 in
  ~ In 7 y_demo /\ 1 <> 0 /\
  (exists e, fst out = inl e /\
             sample_indices_ (snd out) = sample_indices_ state0) /\
  fst out = inl ValueError_choice.
Proof.
  assert (H7 : ~ In 7 y_demo) by (simpl; intuition discriminate).
  assert (H1 : 1 <> 0) by discriminate.
  pose proof (@empty_pool_aborts nat _ counter_rng true (Real 1)
                [(1, 2)] 7 1 [] X_demo y_demo state0 H7 H1) as (Ha & Hb).
  split; [exact H7|]. split; [exact H1|]. split; [exact Ha|].
  apply Hb.
  - reflexivity.
  - constructor; [right; simpl; auto|constructor].
  - intros _. split; [unfold shape0; simpl; lia|].
    split; [reflexivity|]. eexists. simpl. reflexivity.
Defined.

(** C8 as stated fails for a count of 0: nothing is drawn from the empty pool,
    [choice] raises nothing and the call returns. *)
Lemma empty_pool_zero_count_returns :
  ~ In 7 y_demo /\
  exists X_res s',
    _fit_resample false (Real 1) [(7, 0)] X_demo y_demo state0
      = (inr (X_res, y_demo), s') /\
    rows X_res = rows X_demo.
Proof.
  split; [simpl; intuition discriminate|].
  eexists _, _. split; [cbn; reflexivity|reflexivity].
Qed.

Lemma representation_preserved_demo :
  exists X_res y_res s',
    _fit_resample true (Real 1) [(1, 1)] X_csc y_csc state0
      = (inr (X_res, y_res), s') /\
    (issparse X_csc = true -> dtype_ X_csc <> object_) /\
    format X_res = csc /\ dtype_ X_res = int64.
Proof.
  assert (Hnum : issparse X_csc = true -> dtype_ X_csc <> object_)
    by (intros _; discriminate).
  destruct (_fit_resample true (Real 1) [(1, 1)] X_csc y_csc state0)
    as [[e|[X_res y_res]] s'] eqn:Hrun.
  - exfalso. revert Hrun. cbn. discriminate.
  - destruct (@representation_preserved nat _ counter_rng true (Real 1)
                [(1, 1)] X_csc y_csc state0 X_res y_res s' Hrun Hnum)
      as (Hfmt & _ & _ & Hdt & _).
    exists X_res, y_res, s'. split; [reflexivity|]. split; [exact Hnum|].
    split; [exact Hfmt|exact (Hdt eq_refl)].
Defined.


Lemma class_counts_after_resampling_demo :
  exists X_res y_res s',
    _fit_resample false (Real 1) [(0, 1)] X_demo y_demo state0
      = (inr (X_res, y_res), s') /\
    NoDup (keys [(0, 1)]) /\
    count_occ eq_dec y_res 0 = 2 /\ count_occ eq_dec y_res 1 = 2.
Proof.
  assert (Hnd : NoDup (keys [(0, 1)])) by (repeat constructor; simpl; tauto).
  destruct (_fit_resample false (Real 1) [(0, 1)] X_demo y_demo state0)
    as [[e|[X_res y_res]] s'] eqn:Hrun.
  - exfalso. revert Hrun. cbn. discriminate.
  - exists X_res, y_res, s'. split; [reflexivity|]. split; [exact Hnd|].
    pose proof (@class_counts_after_resampling nat _ counter_rng false (Real 1)
                  [(0, 1)] X_demo y_demo state0 X_res y_res s' Hrun Hnd) as H.
    split; [exact (H 0)|exact (H 1)].
Defined.

Lemma sample_indices_index_the_input_demo :
  exists X_res y_res s',
    _fit_resample false (Real 1) [(1, 2)] X_mixed y_demo state0
      = (inr (X_res, y_res), s') /\
    length y_demo = shape0 X_mixed /\
    exists sample_indices,
      sample_indices_ s' = Some sample_indices /\
      Forall (fun i => i < shape0 X_mixed) sample_indices /\
      safe_indexing y_demo sample_indices = Some y_res /\
      (false = false ->
       safe_indexing (rows X_mixed) sample_indices = Some (rows X_res)).
Proof.
  assert (Hy : length y_demo = shape0 X_mixed) by reflexivity.
  destruct (_fit_resample false (Real 1) [(1, 2)] X_mixed y_demo state0)
    as [[e|[X_res y_res]] s'] eqn:Hrun.
  - exfalso. revert Hrun. cbn. discriminate.
  - exists X_res, y_res, s'. split; [reflexivity|]. split; [exact Hy|].
    exact (@sample_indices_index_the_input nat _ counter_rng false (Real 1)
             [(1, 2)] X_mixed y_demo state0 X_res y_res s' Hrun Hy).
Defined.

Lemma output_shape_demo :
  exists X_res y_res s',
    _fit_resample true (Real 1) [(1, 1)] X_pair y_pair state0
      = (inr (X_res, y_res), s') /\
    well_shaped X_pair /\
    length y_pair = shape0 X_pair /\
    well_shaped X_res /\
    shape1 X_res = shape1 X_pair /\
    shape0 X_res = shape0 X_pair + list_sum (map snd [(1, 1)]) /\
    length y_res = shape0 X_res.
Proof.
  assert (Hws : well_shaped X_pair) by (repeat constructor).
  assert (Hy : length y_pair = shape0 X_pair) by reflexivity.
  destruct (_fit_resample true (Real 1) [(1, 1)] X_pair y_pair state0)
    as [[e|[X_res y_res]] s'] eqn:Hrun.
  - exfalso. revert Hrun. cbn. discriminate.
  - exists X_res, y_res, s'. split; [reflexivity|]. split; [exact Hws|].
    split; [exact Hy|].
    exact (@output_shape nat _ counter_rng true (Real 1)
             [(1, 1)] X_pair y_pair state0 X_res y_res s' Hrun Hws Hy).
Defined.



Lemma calls_in_order_demo :
  exists X_res y_res s',
    _fit_resample true (Real 1) [(1, 1)] X_pair y_pair state0
      = (inr (X_res, y_res), s') /\
    calls s' = [call_check_array; call_choice 1; call_randn 1 1].
Proof.
  destruct (_fit_resample true (Real 1) [(1, 1)] X_pair y_pair state0)
    as [[e|[X_res y_res]] s'] eqn:Hrun.
  - exfalso. revert Hrun. cbn. discriminate.
  - exists X_res, y_res, s'. split; [reflexivity|].
    exact (@calls_in_order nat _ counter_rng true (Real 1)
             [(1, 1)] X_pair y_pair state0 X_res y_res s' Hrun).
Defined.


Lemma only_value_errors_demo :
  exists e s',
    _fit_resample true (Real 1) [(7, 1)] X_demo y_demo state0 = (inl e, s') /\
    length y_demo = shape0 X_demo /\
    (true = true -> 0 < shape0 X_demo) /\
    (e = ValueError_choice \/
     (true = true /\
      (e = ValueError_numerical \/
       exists missing, e = ValueError_shrinkage missing))).
Proof.
  assert (Hy : length y_demo = shape0 X_demo) by reflexivity.
  assert (Hpos : true = true -> 0 < shape0 X_demo)
    by (intros _; unfold shape0; simpl; lia).
  destruct (_fit_resample true (Real 1) [(7, 1)] X_demo y_demo state0)
    as [[e|[X_res y_res]] s'] eqn:Hrun.
  - exists e, s'. split; [reflexivity|]. split; [exact Hy|]. split; [exact Hpos|].
    exact (@only_value_errors nat _ counter_rng true (Real 1)
             [(7, 1)] X_demo y_demo state0 e s' Hy Hpos Hrun).
  - exfalso. revert Hrun. cbn. discriminate.
Defined.





Lemma scalar_is_constant_dict_demo :
  let out_scalar := _fit_resample true (Real 2) [(1, 1)] X_pair y_pair state0 in
  let out_dict :=
    _fit_resample true (Dict [(0, 5%R); (1, 2%R)]) [(1, 1)] X_pair y_pair state0 in
  (forall c, In c (keys [(1, 1)]) ->
             getitem [(0, 5%R); (1, 2%R)] c = Some 2%R) /\
  fst out_scalar = fst out_dict /\
  random_state (snd out_scalar) = random_state (snd out_dict) /\
  sample_indices_ (snd out_scalar) = sample_indices_ (snd out_dict).
Proof.
  assert (H : forall c, In c (keys [(1, 1)]) ->
                        getitem [(0, 5%R); (1, 2%R)] c = Some 2%R).
  { intros c [<-|[]]. reflexivity. }
  split; [exact H|].
  exact (@scalar_is_constant_dict nat _ counter_rng 2%R [(0, 5%R); (1, 2%R)]
           [(1, 1)] X_pair y_pair state0 H).
Defined.

Lemma draws_do_not_depend_on_shrinkage_demo :
  exists XA yA sA XB yB tB,
    random_state state0 = random_state state0 /\
    _fit_resample true (Real 1) [(1, 1)] X_pair y_pair state0
      = (inr (XA, yA), sA) /\
    _fit_resample true (Dict [(1, 7%R)]) [(1, 1)] X_pair y_pair state0
      = (inr (XB, yB), tB) /\
    yA = yB /\
    sample_indices_ sA = sample_indices_ tB /\
    random_state sA = random_state tB.
Proof.
  destruct (_fit_resample true (Real 1) [(1, 1)] X_pair y_pair state0)
    as [[e|[XA yA]] sA] eqn:HA.
  { exfalso. revert HA. cbn. discriminate. }
  destruct (_fit_resample true (Dict [(1, 7%R)]) [(1, 1)] X_pair y_pair state0)
    as [[e|[XB yB]] tB] eqn:HB.
  { exfalso. revert HB. cbn. discriminate. }
  exists XA, yA, sA, XB, yB, tB.
  split; [reflexivity|]. split; [reflexivity|]. split; [reflexivity|].
  exact (@draws_do_not_depend_on_shrinkage nat _ counter_rng true (Real 1)
           (Dict [(1, 7%R)]) [(1, 1)] X_pair y_pair state0 state0
           XA yA sA XB yB tB eq_refl HA HB).
Defined.


Lemma smoothing_constant_decreases_demo :
  0 < 10 /\ 10 <= 1000 /\
  (0 < smoothing_constant 1000 2 <= smoothing_constant 10 2)%R.
Proof.
  assert (H1 : 0 < 10) by lia.
  assert (H2 : 10 <= 1000) by lia.
  split; [exact H1|]. split; [exact H2|].
  exact (smoothing_constant_decreases 2 H1 H2).
Defined.

Lemma attributes_after_call_demo :
  exists r s',
    _fit_resample false (Real 1) [(1, 1); (7, 1)] X_demo y_demo state0 = (r, s') /\
    (forall e, r = inl e -> sample_indices_ s' = sample_indices_ state0) /\
    (forall out, r = inr out -> exists si, sample_indices_ s' = Some si) /\
    (false = false -> shrinkage_ s' = Some None).
Proof.
  destruct (_fit_resample false (Real 1) [(1, 1); (7, 1)] X_demo y_demo state0)
    as [r s'] eqn:Hrun.
  exists r, s'. split; [reflexivity|].
  exact (@attributes_after_call nat _ counter_rng false (Real 1)
           [(1, 1); (7, 1)] X_demo y_demo state0 r s' Hrun).
Defined.
